(** * The 53-tone Pythagorean system: ratios, sorting and frequencies

    A shallow embedding of [PythagoreanSystem.py] and of its Italian twin
    [SistemaPitagorico.py].  Both classes build, in their constructor, the
    53 ratios obtained by stacking perfect fifths (3/2) and folding each one
    back into the octave, sort them with [list.sort] on a floating-point key,
    and scale them by a fundamental frequency.

    Python values are modelled as follows.
    - [Fraction] is a rational in lowest terms: a [Q] that every operation
      passes through [Qred], as [fractions.Fraction] does.
    - [float] is an IEEE 754 binary64 number: a finite value is kept as the
      exact rational it denotes, next to the two infinities and NaN.  The
      sign of a zero is not kept; no comparison can observe it.
    - an exception is a value of [exn], carried by the [result] type.
    - the instance [self] is a record of optional attributes threaded through
      the methods by a state-and-error monad. *)

From Equations Require Import Equations.
From Stdlib Require Import ZArith Zdivisibility QArith Qround Qabs Qpower.
From Stdlib Require Qcanon.
From Stdlib Require Import List Bool Lia Lqa Permutation Sorted.
Import ListNotations.

Set Default Goal Selector "!".

Open Scope Q_scope.

(** ** Exceptions and results *)

Inductive exn : Type :=
| AttributeError
| IndexError
| OverflowError
| ZeroDivisionError.

Inductive result (A : Type) : Type :=
| Ok (a : A)
| Raise (e : exn).

Arguments Ok {A} a.
Arguments Raise {A} e.

Definition rbind {A B : Type} (r : result A) (k : A -> result B) : result B :=
  match r with
  | Ok a => k a
  | Raise e => Raise e
  end.

(** A list comprehension whose element expression may raise: evaluated left
    to right, the first exception wins. *)
Fixpoint rmap {A B : Type} (f : A -> result B) (l : list A) : result (list B) :=
  match l with
  | [] => Ok []
  | a :: l' =>
      rbind (f a) (fun b => rbind (rmap f l') (fun bs => Ok (b :: bs)))
  end.

(** ** fractions.Fraction *)

Definition Fraction : Type := Q.

(** [Fraction(n, d)] for a positive literal denominator. *)
Definition mkFraction (n : Z) (d : positive) : Fraction := Qred (n # d).

Definition numerator (a : Fraction) : Z := Qnum a.
Definition denominator (a : Fraction) : Z := Zpos (Qden a).

(** [a * b] on two fractions. *)
Definition Fraction_mul (a b : Fraction) : Fraction := Qred (a * b).

(** [a * n] and [a / n] for an [int] operand, which [Fraction] first turns
    into [Fraction(n)].  The program divides by the literal 2 only, so the
    [ZeroDivisionError] of a zero divisor has no place here. *)
Definition Fraction_mul_int (a : Fraction) (n : Z) : Fraction :=
  Qred (a * inject_Z n).

Definition Fraction_div_int (a : Fraction) (n : Z) : Fraction :=
  Qred (a / inject_Z n).

(** [a >= n] for an [int] operand: an exact comparison. *)
Definition Fraction_ge_int (a : Fraction) (n : Z) : bool :=
  Qle_bool (inject_Z n) a.

(** The octave reduction

      while next_ratio >= 2:
          next_ratio /= 2

    The integer part of the ratio strictly decreases at every turn. *)
Definition inspect {A : Type} (a : A) : {b : A | a = b} := exist _ a eq_refl.

Equations octave_reduce (next_ratio : Fraction) : Fraction
  by wf (Z.to_nat (Qfloor next_ratio)) lt :=
  octave_reduce next_ratio with inspect (Fraction_ge_int next_ratio 2) := {
    | exist _ true Hge => octave_reduce (Fraction_div_int next_ratio 2)
    | exist _ false _ => next_ratio }.
Next Obligation.
  unfold Fraction_ge_int, Fraction_div_int in *.
  apply Qle_bool_iff in Hge.
  assert (Hf : (2 <= Qfloor next_ratio)%Z).
  { change 2%Z with (Qfloor (inject_Z 2)). now apply Qfloor_resp_le. }
  assert (Hh : (Qfloor (Qred (next_ratio / inject_Z 2)) < Qfloor next_ratio)%Z).
  { rewrite Zlt_Qlt.
    pose proof (Qfloor_le (Qred (next_ratio / inject_Z 2))) as Hq.
    pose proof (Qred_correct (next_ratio / inject_Z 2)) as Hr.
    pose proof (Qlt_floor next_ratio) as Hlt.
    rewrite Zle_Qle in Hf. rewrite inject_Z_plus in Hlt.
    unfold Qdiv in *. change (/ inject_Z 2) with (1 # 2) in *.
    change (inject_Z 2) with 2 in *. change (inject_Z 1) with 1 in *.
    lra. }
  lia.
Qed.

(** [range(a, b)] *)
Definition range (a b : nat) : list nat := seq a (b - a).

(** [l[-1]] *)
Definition last_item {A : Type} (l : list A) : result A :=
  match rev l with
  | [] => Raise IndexError
  | x :: _ => Ok x
  end.

(** A [for] loop whose body may raise, over a list of indices. *)
Fixpoint for_each {I S : Type} (body : I -> S -> result S) (idx : list I) (s : S)
  : result S :=
  match idx with
  | [] => Ok s
  | i :: idx' => rbind (body i s) (for_each body idx')
  end.

(** ** float

    An IEEE 754 binary64 value.  A finite float is the rational it denotes,
    kept in lowest terms. *)

Inductive pyfloat : Type :=
| FFin (q : Q)
| FInf (negative : bool)
| FNan.

(** Smallest exponent of a normal number, and the exponent at which
    binary64 overflows. *)
Definition emin : Z := -1022.
Definition emax : Z := 1024.

(** [Qlog2 a] is the integer [e] with [2^e <= a < 2^(e+1)], for [a > 0]. *)
Definition Qlog2 (a : Q) : Z :=
  let e0 := (Z.log2 (Qnum a) - Z.log2 (Zpos (Qden a)))%Z in
  if Qle_bool (2 ^ e0) a then e0 else (e0 - 1)%Z.

(** The spacing of binary64 numbers around [a > 0]: 53 significant bits,
    and the fixed spacing [2^-1074] of the subnormal range. *)
Definition ulp (a : Q) : Q := 2 ^ (Z.max (Qlog2 a) emin - 52).

(** Nearest integer, ties to the even one. *)
Definition round_half_even (y : Q) : Z :=
  let f := Qfloor y in
  match Qcompare (y - inject_Z f) (1 # 2) with
  | Lt => f
  | Gt => (f + 1)%Z
  | Eq => if Z.even f then f else (f + 1)%Z
  end.

(** The multiple of [ulp a] nearest to [a > 0], ties to even. *)
Definition round_pos (a : Q) : Q :=
  inject_Z (round_half_even (a / ulp a)) * ulp a.

(** Rounding of an exact real result to binary64 in the default mode:
    to nearest, ties to even, overflow to an infinity. *)
Definition binary64 (x : Q) : pyfloat :=
  match Qcompare x 0 with
  | Eq => FFin 0
  | Gt => let r := round_pos x in
          if Qle_bool (2 ^ emax) r then FInf false else FFin (Qred r)
  | Lt => let r := round_pos (- x) in
          if Qle_bool (2 ^ emax) r then FInf true else FFin (Qred (- r))
  end.

(** A conversion from an exact [int] or quotient of [int]s does not return
    an infinity: it raises [OverflowError] instead. *)
Definition finite_or_overflow (f : pyfloat) : result pyfloat :=
  match f with
  | FInf _ => Raise OverflowError
  | _ => Ok f
  end.

(** [n / d] on two [int]s: the correctly rounded quotient; a quotient too
    large for a float raises [OverflowError]. *)
Definition int_truediv (n d : Z) : result pyfloat :=
  if (d =? 0)%Z then Raise ZeroDivisionError
  else finite_or_overflow (binary64 (inject_Z n / inject_Z d)).

(** [float(n)] on an [int]. *)
Definition float_of_int (n : Z) : result pyfloat :=
  finite_or_overflow (binary64 (inject_Z n)).

(** [Fraction.__float__]: [a.numerator / a.denominator]. *)
Definition float_of_Fraction (a : Fraction) : result pyfloat :=
  int_truediv (numerator a) (denominator a).

(** [a * b] on two floats. *)
Definition float_mul (a b : pyfloat) : pyfloat :=
  match a, b with
  | FNan, _ | _, FNan => FNan
  | FInf s, FInf t => FInf (xorb s t)
  | FInf s, FFin q | FFin q, FInf s =>
      match Qcompare q 0 with
      | Eq => FNan
      | Lt => FInf (negb s)
      | Gt => FInf s
      end
  | FFin p, FFin q => binary64 (p * q)
  end.

(** [a < b] on two floats. *)
Definition float_lt (a b : pyfloat) : bool :=
  match a, b with
  | FNan, _ | _, FNan => false
  | FFin p, FFin q => negb (Qle_bool q p)
  | FFin _, FInf s => negb s
  | FInf s, FFin _ => s
  | FInf s, FInf t => s && negb t
  end.

(** ** Numbers a caller may pass: [int] or [float] *)

Inductive pynum : Type :=
| PyInt (n : Z)
| PyFloat (f : pyfloat).

(** [a * b] on two numbers; an [int] meeting a [float] is converted first. *)
Definition pynum_mul (a b : pynum) : result pynum :=
  match a, b with
  | PyInt m, PyInt n => Ok (PyInt (m * n))
  | PyInt m, PyFloat g => rbind (float_of_int m) (fun f => Ok (PyFloat (float_mul f g)))
  | PyFloat f, PyInt n => rbind (float_of_int n) (fun g => Ok (PyFloat (float_mul f g)))
  | PyFloat f, PyFloat g => Ok (PyFloat (float_mul f g))
  end.

(** The value of [ratio * fundamental]: a [Fraction] when the fundamental is
    an [int], a [float] when it is a [float]. *)
Inductive pyvalue : Type :=
| VFraction (a : Fraction)
| VFloat (f : pyfloat).

Definition Fraction_mul_num (a : Fraction) (b : pynum) : result pyvalue :=
  match b with
  | PyInt n => Ok (VFraction (Fraction_mul_int a n))
  | PyFloat g => rbind (float_of_Fraction a) (fun f => Ok (VFloat (float_mul f g)))
  end.

(** [float(v)] *)
Definition to_float (v : pyvalue) : result pyfloat :=
  match v with
  | VFraction a => float_of_Fraction a
  | VFloat f => Ok f
  end.

(** ** list.sort(key=...)

    The keys are computed first, one per element and in order; then the
    pairs are sorted on the key alone, with [<] as the only comparison.  On a
    list of fewer than 64 elements CPython sorts by binary insertion: each
    element in turn goes behind every element already placed that is not
    greater, so equal keys keep their order. *)
Section ListSort.
Context {A : Type}.

Fixpoint insert_keyed (x : pyfloat * A) (placed : list (pyfloat * A))
  : list (pyfloat * A) :=
  match placed with
  | [] => [x]
  | y :: placed' =>
      if float_lt (fst x) (fst y) then x :: y :: placed'
      else y :: insert_keyed x placed'
  end.

Definition sort_keyed (l : list (pyfloat * A)) : list (pyfloat * A) :=
  fold_left (fun placed x => insert_keyed x placed) l [].

Definition list_sort (key : A -> result pyfloat) (l : list A)
  : result (list A) :=
  rbind (rmap (fun a => rbind (key a) (fun k => Ok (k, a))) l) (fun keyed =>
  Ok (map snd (sort_keyed keyed))).
End ListSort.

(** ** Instances and methods

    The three attributes a constructor sets, each absent until assigned. *)
Record instance : Type := {
  attr_fundamental : option pynum;
  attr_ratios : option (list Fraction);
  attr_frequencies : option (list pyfloat)
}.

Definition new_instance : instance :=
  {| attr_fundamental := None; attr_ratios := None; attr_frequencies := None |}.

(** A method body: it reads and updates [self] and may raise. *)
Definition method (A : Type) : Type := instance -> result (A * instance).

Definition ret {A : Type} (a : A) : method A := fun self => Ok (a, self).

Definition bind {A B : Type} (m : method A) (k : A -> method B) : method B :=
  fun self =>
    match m self with
    | Ok (a, self') => k a self'
    | Raise e => Raise e
    end.

Definition lift {A : Type} (r : result A) : method A :=
  fun self => rbind r (fun a => Ok (a, self)).

Notation "x <- m ;; k" := (bind m (fun x => k))
  (at level 61, m at next level, right associativity).
Notation "m ;;; k" := (bind m (fun _ => k))
  (at level 61, right associativity).

(** A list comprehension whose element expression is itself a method body:
    evaluated left to right, the first exception wins. *)
Fixpoint comprehension {A B : Type} (f : A -> method B) (l : list A)
  : method (list B) :=
  match l with
  | [] => ret []
  | a :: l' => b <- f a ;; bs <- comprehension f l' ;; ret (b :: bs)
  end.

Definition get_attr {A : Type} (field : instance -> option A) : method A :=
  fun self =>
    match field self with
    | Some a => Ok (a, self)
    | None => Raise AttributeError
    end.

Definition set_fundamental (v : pynum) : method unit :=
  fun self => Ok (tt, {| attr_fundamental := Some v;
                         attr_ratios := attr_ratios self;
                         attr_frequencies := attr_frequencies self |}).

Definition set_ratios (v : list Fraction) : method unit :=
  fun self => Ok (tt, {| attr_fundamental := attr_fundamental self;
                         attr_ratios := Some v;
                         attr_frequencies := attr_frequencies self |}).

Definition set_frequencies (v : list pyfloat) : method unit :=
  fun self => Ok (tt, {| attr_fundamental := attr_fundamental self;
                         attr_ratios := attr_ratios self;
                         attr_frequencies := Some v |}).

(** ** PythagoreanSystem.py *)

Module PythagoreanSystem.

Definition fifth_ratio : Fraction := mkFraction 3 2.

(** One turn of the generation loop: multiply the last ratio by the fifth,
    fold the product into the octave, append it. *)
Definition generate_step (_ : nat) (ratios : list Fraction)
  : result (list Fraction) :=
  rbind (last_item ratios) (fun last =>
  let next_ratio := Fraction_mul last fifth_ratio in
  let next_ratio := octave_reduce next_ratio in
  Ok (ratios ++ [next_ratio])).

Definition generate_ratios : method (list Fraction) :=
  lift (for_each generate_step (range 1 53) [mkFraction 1 1]).

Definition calculate_frequencies : method (list pyfloat) :=
  ratios <- get_attr attr_ratios ;;
  comprehension
    (fun ratio =>
       fundamental <- get_attr attr_fundamental ;;
       lift (rbind (Fraction_mul_num ratio fundamental) to_float))
    ratios.

Definition sort_ratios : method unit :=
  ratios <- get_attr attr_ratios ;;
  sorted <- lift (list_sort
                    (fun ratio => int_truediv (numerator ratio)
                                              (denominator ratio))
                    ratios) ;;
  set_ratios sorted.

(** [__init__(self, fundamental=100, octave=1)] *)
Definition init (fundamental octave : pynum) : method unit :=
  effective <- lift (pynum_mul fundamental octave) ;;
  set_fundamental effective ;;;
  ratios <- generate_ratios ;;
  set_ratios ratios ;;;
  sort_ratios ;;;
  frequencies <- calculate_frequencies ;;
  set_frequencies frequencies.

Definition default_fundamental : pynum := PyInt 100.
Definition default_octave : pynum := PyInt 1.

(** [PythagoreanSystem(fundamental, octave)] *)
Definition construct (fundamental octave : pynum) : result instance :=
  rbind (init fundamental octave new_instance) (fun r => Ok (snd r)).

(** [system = PythagoreanSystem()] *)
Definition system : result instance :=
  construct default_fundamental default_octave.

End PythagoreanSystem.

(** ** SistemaPitagorico.py

    The Italian twin.  Its attributes [fondamentale], [rapporti] and
    [frequenze] take the places of [fundamental], [ratios] and
    [frequencies] in the instance. *)

Module SistemaPitagorico.

Definition rapporto_quinta : Fraction := mkFraction 3 2.

Definition genera_passo (_ : nat) (rapporti : list Fraction)
  : result (list Fraction) :=
  rbind (last_item rapporti) (fun ultimo =>
  let prossimo_rapporto := Fraction_mul ultimo rapporto_quinta in
  let prossimo_rapporto := octave_reduce prossimo_rapporto in
  Ok (rapporti ++ [prossimo_rapporto])).

Definition genera_rapporti : method (list Fraction) :=
  lift (for_each genera_passo (range 1 53) [mkFraction 1 1]).

Definition calcola_frequenze : method (list pyfloat) :=
  rapporti <- get_attr attr_ratios ;;
  comprehension
    (fun rapporto =>
       fondamentale <- get_attr attr_fundamental ;;
       lift (rbind (Fraction_mul_num rapporto fondamentale) to_float))
    rapporti.

Definition ordina_rapporti : method unit :=
  rapporti <- get_attr attr_ratios ;;
  ordinati <- lift (list_sort
                      (fun rapporto => int_truediv (numerator rapporto)
                                                   (denominator rapporto))
                      rapporti) ;;
  set_ratios ordinati.

(** [__init__(self, fondamentale=32, ottava=2)] *)
Definition init (fondamentale ottava : pynum) : method unit :=
  effettiva <- lift (pynum_mul fondamentale ottava) ;;
  set_fundamental effettiva ;;;
  rapporti <- genera_rapporti ;;
  set_ratios rapporti ;;;
  ordina_rapporti ;;;
  frequenze <- calcola_frequenze ;;
  set_frequencies frequenze.

Definition default_fondamentale : pynum := PyInt 32.
Definition default_ottava : pynum := PyInt 2.

(** [SistemaPitagorico(fondamentale, ottava)] *)
Definition construct (fondamentale ottava : pynum) : result instance :=
  rbind (init fondamentale ottava new_instance) (fun r => Ok (snd r)).

(** [sistema = SistemaPitagorico()] *)
Definition sistema : result instance :=
  construct default_fondamentale default_ottava.

End SistemaPitagorico.

(** ** Notions used to state the properties *)

(** [halvings k x y]: the octave-reduction loop entered with [x] runs its
    body exactly [k] times and leaves with [y]. *)
Inductive halvings : nat -> Fraction -> Fraction -> Prop :=
| halvings_exit x : Fraction_ge_int x 2 = false -> halvings 0 x x
| halvings_turn k x y :
    Fraction_ge_int x 2 = true ->
    halvings k (Fraction_div_int x 2) y ->
    halvings (S k) x y.

(** What one turn of the generation loop appends after [x]. *)
Definition next_fifth (x : Fraction) : Fraction :=
  octave_reduce (Fraction_mul x PythagoreanSystem.fifth_ratio).

(** [x] followed by its [n] successive fifths. *)
Fixpoint fifths (n : nat) (x : Fraction) : list Fraction :=
  match n with
  | O => [x]
  | S n' => x :: fifths n' (next_fifth x)
  end.

(** The ratio list as [generate_ratios] returns it, in generation order. *)
Definition generated : list Fraction :=
  Eval vm_compute in fifths 52 (mkFraction 1 1).

(** [a <= b] on two floats. *)
Definition float_le (a b : pyfloat) : bool :=
  match a, b with
  | FNan, _ | _, FNan => false
  | FFin p, FFin q => Qle_bool p q
  | FFin _, FInf s => negb s
  | FInf s, FFin _ => s
  | FInf s, FInf t => s || negb t
  end.

(** A float that really is a binary64 number: rounding leaves it alone. *)
Definition is_binary64 (f : pyfloat) : Prop :=
  match f with
  | FFin q => binary64 q = FFin q
  | _ => True
  end.

(** The exact value of a finite number. *)
Definition value_of (v : pynum) : option Q :=
  match v with
  | PyInt n => Some (inject_Z n)
  | PyFloat (FFin q) => Some q
  | PyFloat _ => None
  end.

(** An instance in the state the constructor leaves it in before it calls
    [calculate_frequencies]. *)
Definition configured (fundamental : pynum) (ratios : list Fraction) : instance :=
  {| attr_fundamental := Some fundamental;
     attr_ratios := Some ratios;
     attr_frequencies := None |}.

(** A fraction as [fractions.Fraction] stores it: in lowest terms. *)
Definition canonical (a : Fraction) : Prop := Qred a = a.

(** [pythagorean k x]: [x] is [3^k] over a power of 2. *)
Definition pythagorean (k : Z) (x : Fraction) : Prop :=
  numerator x = (3 ^ k)%Z /\ exists m, (0 <= m)%Z /\ denominator x = (2 ^ m)%Z.

(** The order [list.sort] leaves between neighbouring keyed entries: the
    right key is not below the left one. *)
Definition key_le {A : Type} (x y : pyfloat * A) : Prop :=
  float_lt (fst y) (fst x) = false.

(** The same between neighbouring elements, through a key function: both
    keys were computed, and the right one is not below the left one. *)
Definition keys_ascend {A : Type} (key : A -> result pyfloat) (a b : A) : Prop :=
  exists ka kb, key a = Ok ka /\ key b = Ok kb /\ float_lt kb ka = false.

(** The sort key of both classes, [ratio.numerator / ratio.denominator]. *)
Definition sort_key (ratio : Fraction) : result pyfloat :=
  int_truediv (numerator ratio) (denominator ratio).

(** The ratio list as [sort_ratios] leaves it. *)
Definition sorted_ratios : list Fraction :=
  Eval vm_compute in
    match list_sort sort_key generated with
    | Ok l => l
    | Raise _ => []
    end.

(** Rounding to a float does not merge or swap the two ratios: when [a] is
    below [b], the key of [a] is strictly below the key of [b]. *)
Definition key_separates (a b : Fraction) : bool :=
  match sort_key a, sort_key b with
  | Ok ka, Ok kb => implb (negb (Qle_bool b a)) (float_lt ka kb)
  | _, _ => false
  end.

(** The largest finite binary64 number. *)
Definition max_float : Q := 2 ^ 1024 - 2 ^ 971.

(** [-f] on a float. *)
Definition float_neg (f : pyfloat) : pyfloat :=
  match f with
  | FFin q => FFin (Qred (- q))
  | FInf s => FInf (negb s)
  | FNan => FNan
  end.

(** [v > 0] on a number. *)
Definition is_positive (v : pynum) : bool :=
  match v with
  | PyInt n => (0 <? n)%Z
  | PyFloat f => float_lt (FFin 0) f
  end.

(** The element expression of [calculate_frequencies],
    [float(ratio * self.fundamental)]. *)
Definition frequency_of (fundamental : pynum) (ratio : Fraction) : result pyfloat :=
  rbind (Fraction_mul_num ratio fundamental) to_float.

(** The ratio and its float both lie between 1 and the greatest binary64
    number below 2. *)
Definition ratio_in_range (ratio : Fraction) : bool :=
  match float_of_Fraction ratio with
  | Ok (FFin k) =>
      Qle_bool 1 k && Qle_bool k (2 - 2 ^ (-52))
      && Qle_bool 1 ratio && Qle_bool ratio (2 - 2 ^ (-52))
  | _ => false
  end.

(** A number a caller can really pass: any [int], or a [float] that is a
    binary64 number. *)
Definition well_formed (v : pynum) : Prop :=
  match v with
  | PyInt _ => True
  | PyFloat f => is_binary64 f
  end.

(** [q] is positive, zero or negative as [x] is. *)
Definition same_sign (x q : Q) : Prop :=
  (0 < x -> 0 < q) /\ (x == 0 -> q == 0) /\ (x < 0 -> q < 0).

(** The frequencies of the default [PythagoreanSystem()], fundamental 100. *)
Definition default_frequencies : list pyfloat :=
  Eval vm_compute in
    match rmap (frequency_of (PyInt 100)) sorted_ratios with
    | Ok l => l
    | Raise _ => []
    end.

(** The two steps of the sorted scale: the Pythagorean comma, [3^12 / 2^19],
    and the smaller [2^65 / 3^41]. *)
Definition pythagorean_comma : Q := 531441 # 524288.
Definition small_step : Q := 36893488147419103232 # 36472996377170786403.

(** [b] is one step above [a]. *)
Definition is_step (a b : Fraction) : bool :=
  Qeq_bool b (a * pythagorean_comma) || Qeq_bool b (a * small_step).

(** A result that is a value or an [OverflowError], nothing else. *)
Definition ok_or_overflow {A : Type} (r : result A) : Prop :=
  (exists a, r = Ok a) \/ r = Raise OverflowError.

(** A keyed entry whose key is a finite float. *)
Definition finite_key {A : Type} (x : pyfloat * A) : Prop :=
  exists q, fst x = FFin q.

(** The keyed entry has the float key [q]. *)
Definition entry_has_key {A : Type} (q : Q) (p : pyfloat * A) : bool :=
  match fst p with
  | FFin k => Qeq_bool k q
  | _ => false
  end.

(** The sort key of the ratio is the float [q]. *)
Definition has_key (q : Q) (ratio : Fraction) : bool :=
  match sort_key ratio with
  | Ok (FFin k) => Qeq_bool k q
  | _ => false
  end.

(** * Properties *)

(** ** The octave reduction *)

Lemma Fraction_ge_int_true (x : Fraction) (n : Z) :
  Fraction_ge_int x n = true <-> inject_Z n <= x.
Proof. unfold Fraction_ge_int. apply Qle_bool_iff. Qed.

Lemma Fraction_ge_int_false (x : Fraction) (n : Z) :
  Fraction_ge_int x n = false <-> x < inject_Z n.
Proof.
  unfold Fraction_ge_int. split; intros H.
  - apply Qnot_le_lt. intros Hle. apply Qle_bool_iff in Hle. congruence.
  - destruct (Qle_bool (inject_Z n) x) eqn:E; [|reflexivity].
    apply Qle_bool_iff in E. exfalso. exact (Qlt_not_le _ _ H E).
Qed.

Lemma octave_reduce_exit (x : Fraction) :
  Fraction_ge_int x 2 = false -> octave_reduce x = x.
Proof.
  intros H. funelim (octave_reduce x); [congruence | reflexivity].
Qed.

Lemma octave_reduce_turn (x : Fraction) :
  Fraction_ge_int x 2 = true ->
  octave_reduce x = octave_reduce (Fraction_div_int x 2).
Proof.
  intros H. funelim (octave_reduce x); [reflexivity | congruence].
Qed.

(** The loop always leaves, after some number of turns, with the value the
    function returns. *)
Lemma octave_reduce_halvings (x : Fraction) :
  exists k, halvings k x (octave_reduce x).
Proof.
  funelim (octave_reduce x).
  - destruct H as [k Hk]. exists (S k). now apply halvings_turn.
  - exists 0%nat. now apply halvings_exit.
Qed.

Lemma halvings_deterministic k x y :
  halvings k x y -> forall k' y', halvings k' x y' -> k = k' /\ y = y'.
Proof.
  induction 1 as [x Hx | k x y Hx _ IH]; intros k' y' H'.
  - inversion H'; subst; [auto | congruence].
  - inversion H'; subst; [congruence |].
    match goal with Hr : halvings _ (Fraction_div_int x 2) _ |- _ =>
      destruct (IH _ _ Hr) as [-> ->] end.
    auto.
Qed.

Lemma halvings_octave_reduce k x y : halvings k x y -> octave_reduce x = y.
Proof.
  intros H. destruct (octave_reduce_halvings x) as [k' Hk'].
  now destruct (halvings_deterministic _ _ _ Hk' _ _ H).
Qed.

Lemma fifth_ratio_value : PythagoreanSystem.fifth_ratio = 3 # 2.
Proof. reflexivity. Qed.

Lemma Fraction_mul_fifth (x : Fraction) :
  Fraction_mul x PythagoreanSystem.fifth_ratio == x * (3 # 2).
Proof. unfold Fraction_mul. rewrite fifth_ratio_value. apply Qred_correct. Qed.

Lemma Fraction_div_int_2 (x : Fraction) : Fraction_div_int x 2 == x * (1 # 2).
Proof. unfold Fraction_div_int. rewrite Qred_correct. reflexivity. Qed.

(** A product below 4 is folded back by at most one halving. *)
Lemma halvings_below_4 (y : Fraction) :
  1 <= y < 4 ->
  exists k, (k <= 1)%nat /\ halvings k y (octave_reduce y)
            /\ 1 <= octave_reduce y < 2.
Proof.
  intros [Hlo Hhi].
  destruct (Fraction_ge_int y 2) eqn:E.
  - pose proof E as Hge. apply Fraction_ge_int_true in Hge.
    change (inject_Z 2) with 2 in Hge.
    pose proof (Fraction_div_int_2 y) as Hhalf.
    assert (Hex : Fraction_ge_int (Fraction_div_int y 2) 2 = false).
    { apply Fraction_ge_int_false. change (inject_Z 2) with 2. lra. }
    rewrite (octave_reduce_turn _ E), (octave_reduce_exit _ Hex).
    exists 1%nat. split; [lia |]. split.
    + apply halvings_turn; [exact E | now apply halvings_exit].
    + lra.
  - pose proof E as Hlt. apply Fraction_ge_int_false in Hlt.
    change (inject_Z 2) with 2 in Hlt.
    rewrite (octave_reduce_exit _ E).
    exists 0%nat. split; [lia |]. split; [now apply halvings_exit | lra].
Qed.

Lemma next_fifth_in_octave (x : Fraction) :
  1 <= x < 2 -> 1 <= next_fifth x < 2.
Proof.
  intros Hx. pose proof (Fraction_mul_fifth x) as Hm.
  destruct (halvings_below_4 (Fraction_mul x PythagoreanSystem.fifth_ratio))
    as (k & _ & _ & H); [lra | exact H].
Qed.

(** ** The generation loop *)

Lemma last_item_snoc {A : Type} (l : list A) (x : A) :
  last_item (l ++ [x]) = Ok x.
Proof. unfold last_item. now rewrite rev_app_distr. Qed.

Lemma generate_loop (idx : list nat) :
  forall (l : list Fraction) (x : Fraction),
    for_each PythagoreanSystem.generate_step idx (l ++ [x])
    = Ok (l ++ fifths (length idx) x).
Proof.
  induction idx as [| i idx IH]; intros l x; simpl.
  - reflexivity.
  - unfold PythagoreanSystem.generate_step at 1.
    rewrite last_item_snoc. simpl.
    fold (next_fifth x). rewrite IH, <- app_assoc. reflexivity.
Qed.

Lemma generate_ratios_generated (self : instance) :
  PythagoreanSystem.generate_ratios self = Ok (generated, self).
Proof.
  unfold PythagoreanSystem.generate_ratios, lift.
  change [mkFraction 1 1] with ([] ++ [mkFraction 1 1]).
  rewrite generate_loop.
  vm_compute. reflexivity.
Qed.

Lemma generated_fifths : generated = fifths 52 1.
Proof. vm_compute. reflexivity. Qed.

Lemma fifths_length n x : length (fifths n x) = S n.
Proof. revert x; induction n; intros; simpl; auto. Qed.

Lemma fifths_nth_succ n : forall x i y,
  (i < n)%nat ->
  nth_error (fifths n x) i = Some y ->
  nth_error (fifths n x) (S i) = Some (next_fifth y).
Proof.
  induction n as [| n IH]; intros x i y Hi H; [lia |].
  destruct i as [| i]; simpl in *.
  - injection H as <-. destruct n; reflexivity.
  - apply IH; [lia | exact H].
Qed.

Lemma fifths_in_octave n : forall x,
  1 <= x < 2 -> Forall (fun r => 1 <= r < 2) (fifths n x).
Proof.
  induction n as [| n IH]; intros x Hx; simpl.
  - constructor; [exact Hx | constructor].
  - constructor; [exact Hx |]. apply IH. now apply next_fifth_in_octave.
Qed.

(** ** Numerators are powers of 3, denominators powers of 2 *)

Lemma gcd_pow3_pow2 (k m : Z) :
  (0 <= k)%Z -> (0 <= m)%Z -> Z.gcd (3 ^ k) (2 ^ m) = 1%Z.
Proof.
  intros Hk Hm. change (Z.coprime (3 ^ k) (2 ^ m)).
  apply Z.coprime_pow_l; [exact Hk |].
  apply Z.coprime_pow_r; [exact Hm | reflexivity].
Qed.

Lemma pythagorean_canonical k x :
  (0 <= k)%Z -> pythagorean k x -> canonical x.
Proof.
  intros Hk [Hn (m & Hm & Hd)]. unfold numerator, denominator in *.
  apply Qcanon.Qred_identity. rewrite Hn, Hd. now apply gcd_pow3_pow2.
Qed.

Lemma pythagorean_scale (k m : Z) (n : Z) (d : positive) :
  (0 <= k)%Z -> (0 <= m)%Z -> n = (3 ^ k)%Z -> Zpos d = (2 ^ m)%Z ->
  pythagorean k (Qred (n # d)).
Proof.
  intros Hk Hm Hn Hd.
  rewrite Qcanon.Qred_identity.
  - split; [exact Hn | exists m; split; assumption].
  - simpl. rewrite Hn, Hd. now apply gcd_pow3_pow2.
Qed.

Lemma pythagorean_halve k x :
  (0 <= k)%Z -> pythagorean k x -> pythagorean k (Fraction_div_int x 2).
Proof.
  intros Hk [Hn (m & Hm & Hd)]. unfold numerator, denominator in *.
  unfold Fraction_div_int.
  change (x / inject_Z 2) with ((Qnum x * 1)%Z # (Qden x * 2)%positive).
  apply (pythagorean_scale k (m + 1)); try lia.
  rewrite Pos2Z.inj_mul, Hd, Z.pow_add_r by lia. reflexivity.
Qed.

Lemma pythagorean_octave_reduce k x :
  (0 <= k)%Z -> pythagorean k x -> pythagorean k (octave_reduce x).
Proof.
  intros Hk. funelim (octave_reduce x); intros Hx.
  - apply H; [exact Hk | now apply pythagorean_halve].
  - exact Hx.
Qed.

Lemma pythagorean_next k x :
  (0 <= k)%Z -> pythagorean k x -> pythagorean (k + 1) (next_fifth x).
Proof.
  intros Hk [Hn (m & Hm & Hd)]. unfold numerator, denominator in *.
  unfold next_fifth. apply pythagorean_octave_reduce; [lia |].
  unfold Fraction_mul. rewrite fifth_ratio_value.
  change (x * (3 # 2)) with ((Qnum x * 3)%Z # (Qden x * 2)%positive).
  apply (pythagorean_scale (k + 1) (m + 1)); try lia.
  - rewrite Hn, Z.pow_add_r by lia. reflexivity.
  - rewrite Pos2Z.inj_mul, Hd, Z.pow_add_r by lia. reflexivity.
Qed.

Lemma fifths_pythagorean n : forall k x i y,
  (0 <= k)%Z -> pythagorean k x ->
  nth_error (fifths n x) i = Some y -> pythagorean (k + Z.of_nat i) y.
Proof.
  induction n as [| n IH]; intros k x i y Hk Hx H.
  - destruct i as [| i]; simpl in H.
    + injection H as <-. now rewrite Z.add_0_r.
    + destruct i; discriminate.
  - destruct i as [| i]; simpl in H.
    + injection H as <-. now rewrite Z.add_0_r.
    + replace (k + Z.of_nat (S i))%Z with ((k + 1) + Z.of_nat i)%Z by lia.
      apply (IH (k + 1)%Z (next_fifth x)); [lia | | exact H].
      now apply pythagorean_next.
Qed.

Lemma generated_pythagorean i y :
  nth_error generated i = Some y -> pythagorean (Z.of_nat i) y.
Proof.
  rewrite generated_fifths. intros H.
  apply (fifths_pythagorean 52 0 1 i y); [lia | | exact H].
  split; [reflexivity | exists 0%Z; split; [lia | reflexivity]].
Qed.

Lemma canonical_Qeq (a b : Fraction) :
  canonical a -> canonical b -> a == b -> a = b.
Proof.
  unfold canonical. intros Ha Hb H. rewrite <- Ha, <- Hb.
  now apply Qred_complete.
Qed.

Lemma pow3_inj (i j : nat) :
  (3 ^ Z.of_nat i = 3 ^ Z.of_nat j)%Z -> i = j.
Proof.
  intros H. apply Nat2Z.inj.
  apply (Z.pow_inj_r 3); try lia.
Qed.

Lemma generated_in_octave : Forall (fun r => 1 <= r < 2) generated.
Proof.
  rewrite generated_fifths. apply fifths_in_octave. lra.
Qed.

Lemma generated_canonical i r :
  nth_error generated i = Some r -> canonical r.
Proof.
  intros H. apply (pythagorean_canonical (Z.of_nat i)); [lia |].
  now apply generated_pythagorean.
Qed.

Lemma generated_distinct i j a b :
  nth_error generated i = Some a -> nth_error generated j = Some b ->
  a == b -> i = j.
Proof.
  intros Ha Hb Hab.
  assert (E : a = b).
  { apply canonical_Qeq; eauto using generated_canonical. }
  destruct (generated_pythagorean _ _ Ha) as [Hna _].
  destruct (generated_pythagorean _ _ Hb) as [Hnb _].
  apply pow3_inj. rewrite <- Hna, <- Hnb, E. reflexivity.
Qed.

Lemma genera_rapporti_generate_ratios :
  SistemaPitagorico.genera_rapporti = PythagoreanSystem.generate_ratios.
Proof. reflexivity. Qed.

(** C1. Both generators return the same 53 ratios, each of them in the
    half-open octave [1, 2), and only the first one, the unison, equals 1. *)
Theorem generate_ratios_within_octave (self : instance) :
  PythagoreanSystem.generate_ratios self = Ok (generated, self) /\
  SistemaPitagorico.genera_rapporti self = Ok (generated, self) /\
  length generated = 53%nat /\
  forall i r, nth_error generated i = Some r ->
              1 <= r < 2 /\ (r == 1 <-> i = 0%nat).
Proof.
  split; [apply generate_ratios_generated |].
  split; [rewrite genera_rapporti_generate_ratios;
          apply generate_ratios_generated |].
  split; [reflexivity |].
  intros i r H. split.
  - pose proof generated_in_octave as Hall.
    rewrite Forall_forall in Hall. apply Hall. eapply nth_error_In; eauto.
  - split.
    + intros Hr. apply (generated_distinct i 0%nat r 1 H); [reflexivity | exact Hr].
    + intros ->. injection H as <-. reflexivity.
Qed.

(** C4. Before sorting the sequence has 53 entries, the unison comes first
    and is the only entry equal to 1/1, and no two entries at different
    positions are equal as rationals. *)
Theorem generate_ratios_distinct (self : instance) :
  PythagoreanSystem.generate_ratios self = Ok (generated, self) /\
  length generated = 53%nat /\
  nth_error generated 0 = Some 1 /\
  length (filter (fun r => Qeq_bool r 1) generated) = 1%nat /\
  (forall i j a b,
      nth_error generated i = Some a -> nth_error generated j = Some b ->
      a == b -> i = j) /\
  NoDup generated.
Proof.
  split; [apply generate_ratios_generated |].
  split; [reflexivity |].
  split; [reflexivity |].
  split; [vm_compute; reflexivity |].
  split; [exact generated_distinct |].
  apply NoDup_nth_error. intros i j Hi E.
  destruct (nth_error generated i) as [a |] eqn:Ha.
  - symmetry in E. apply (generated_distinct i j a a Ha E). reflexivity.
  - apply nth_error_Some in Hi. contradiction.
Qed.

(** C8. A ratio in [1, 2) times the fifth stays below 4, so the reduction
    loop entered with that product leaves after at most one turn of its
    body, with a ratio in [1, 2); every one of the 52 generation steps
    starts from such a ratio and appends that result. *)
Theorem octave_reduce_at_most_one_halving :
  (forall x : Fraction,
      1 <= x < 2 ->
      Fraction_mul x PythagoreanSystem.fifth_ratio < 4 /\
      (exists k, halvings k (Fraction_mul x PythagoreanSystem.fifth_ratio)
                          (next_fifth x)) /\
      (forall k y,
          halvings k (Fraction_mul x PythagoreanSystem.fifth_ratio) y ->
          (k <= 1)%nat /\ y = next_fifth x /\ 1 <= y < 2)) /\
  (forall i x,
      (i < 52)%nat -> nth_error generated i = Some x ->
      1 <= x < 2 /\ nth_error generated (S i) = Some (next_fifth x)).
Proof.
  split.
  - intros x Hx. pose proof (Fraction_mul_fifth x) as Hm.
    destruct (halvings_below_4 (Fraction_mul x PythagoreanSystem.fifth_ratio))
      as (k0 & Hk0 & Hrun & Hoct); [lra |].
    split; [lra |]. split; [now exists k0 |].
    intros k y Hky.
    destruct (halvings_deterministic _ _ _ Hky _ _ Hrun) as [-> ->].
    repeat split; solve [assumption | apply Hoct].
  - intros i x Hi H. split.
    + pose proof generated_in_octave as Hall.
      rewrite Forall_forall in Hall. apply Hall. eapply nth_error_In; eauto.
    + rewrite generated_fifths in *. now apply fifths_nth_succ.
Qed.

Lemma octave_reduce_at_most_one_halving_witness :
  1 <= (3 # 2) < 2 /\
  exists k, (k <= 1)%nat /\
            halvings k (Fraction_mul (3 # 2) PythagoreanSystem.fifth_ratio)
                     (next_fifth (3 # 2)).
Proof.
  assert (H : 1 <= (3 # 2) < 2) by lra.
  split; [exact H |].
  destruct (proj1 octave_reduce_at_most_one_halving (3 # 2) H)
    as (_ & [k Hk] & Hall).
  exists k. split; [exact (proj1 (Hall k _ Hk)) | exact Hk].
Defined.

(** C10. The entry generated at position [k] has numerator [3^k] and a
    power of 2 as denominator; the denominator is positive and the pair is
    in lowest terms. *)
Theorem generate_ratios_powers (self : instance) :
  PythagoreanSystem.generate_ratios self = Ok (generated, self) /\
  SistemaPitagorico.genera_rapporti self = Ok (generated, self) /\
  forall k r, nth_error generated k = Some r ->
              numerator r = (3 ^ Z.of_nat k)%Z /\
              (exists m, (0 <= m)%Z /\ denominator r = (2 ^ m)%Z) /\
              (0 < denominator r)%Z /\
              Z.gcd (numerator r) (denominator r) = 1%Z.
Proof.
  split; [apply generate_ratios_generated |].
  split; [rewrite genera_rapporti_generate_ratios;
          apply generate_ratios_generated |].
  intros k r H.
  destruct (generated_pythagorean _ _ H) as [Hn (m & Hm & Hd)].
  split; [exact Hn |].
  split; [exists m; split; assumption |].
  split; [reflexivity |].
  rewrite Hn, Hd. apply gcd_pow3_pow2; lia.
Qed.

(** ** list.sort *)

Section SortFacts.
Context {A : Type} (key : A -> result pyfloat).
Implicit Types (x y : pyfloat * A) (l : list (pyfloat * A)).

Lemma float_lt_asym (a b : pyfloat) :
  float_lt a b = true -> float_lt b a = false.
Proof.
  destruct a as [p | [] |], b as [q | [] |]; simpl; try congruence.
  rewrite !negb_true_iff, negb_false_iff. intros H.
  apply Qle_bool_iff. apply Qlt_le_weak. apply Qnot_le_lt.
  intros Hle. apply Qle_bool_iff in Hle. congruence.
Qed.

Lemma insert_keyed_perm x l : Permutation (x :: l) (insert_keyed x l).
Proof.
  induction l as [| y l IH]; simpl.
  - reflexivity.
  - destruct (float_lt (fst x) (fst y)).
    + reflexivity.
    + rewrite perm_swap. now constructor.
Qed.

Lemma sort_keyed_perm l : Permutation l (sort_keyed l).
Proof.
  unfold sort_keyed.
  enough (H : forall placed,
             Permutation (placed ++ l)
               (fold_left (fun placed x => insert_keyed x placed) l placed))
    by exact (H []).
  induction l as [| x l IH]; intros placed; simpl.
  - now rewrite app_nil_r.
  - rewrite <- IH. rewrite <- insert_keyed_perm.
    symmetry. apply Permutation_middle.
Qed.

Lemma insert_keyed_hd x y l :
  key_le y x -> HdRel key_le y l -> HdRel key_le y (insert_keyed x l).
Proof.
  intros Hyx H. destruct l as [| z l]; simpl.
  - now constructor.
  - destruct (float_lt (fst x) (fst z)); constructor; [exact Hyx |].
    now inversion H.
Qed.

Lemma insert_keyed_sorted x l :
  Sorted key_le l -> Sorted key_le (insert_keyed x l).
Proof.
  induction 1 as [| y l Hs IH Hhd]; simpl.
  - repeat constructor.
  - destruct (float_lt (fst x) (fst y)) eqn:E.
    + constructor; [now constructor |].
      constructor. unfold key_le. now apply float_lt_asym.
    + constructor; [exact IH |]. now apply insert_keyed_hd.
Qed.

Lemma sort_keyed_sorted l : Sorted key_le (sort_keyed l).
Proof.
  unfold sort_keyed.
  enough (H : forall placed,
             Sorted key_le placed ->
             Sorted key_le
               (fold_left (fun placed x => insert_keyed x placed) l placed))
    by (apply H; constructor).
  induction l as [| x l IH]; intros placed Hp; simpl.
  - exact Hp.
  - apply IH. now apply insert_keyed_sorted.
Qed.

Lemma rmap_keyed (l : list A) : forall keyed,
  rmap (fun a => rbind (key a) (fun k => Ok (k, a))) l = Ok keyed ->
  map snd keyed = l /\ Forall (fun p => key (snd p) = Ok (fst p)) keyed.
Proof.
  induction l as [| a l IH]; intros keyed H; simpl in H.
  - injection H as <-. split; constructor.
  - destruct (key a) as [k |] eqn:Ek; simpl in H; [| discriminate].
    destruct (rmap _ l) as [kl |]; simpl in H; [| discriminate].
    injection H as <-. destruct (IH kl eq_refl) as [Hm Hf].
    split; simpl; [now rewrite Hm | now constructor].
Qed.

Lemma list_sort_perm (l l' : list A) :
  list_sort key l = Ok l' -> Permutation l l'.
Proof.
  unfold list_sort. intros H.
  destruct (rmap _ l) as [keyed |] eqn:E; simpl in H; [| discriminate].
  injection H as <-. destruct (rmap_keyed _ _ E) as [Hm _].
  rewrite <- Hm at 1. apply Permutation_map, sort_keyed_perm.
Qed.

Lemma list_sort_sorted (l l' : list A) :
  list_sort key l = Ok l' -> Sorted (keys_ascend key) l'.
Proof.
  unfold list_sort. intros H.
  destruct (rmap _ l) as [keyed |] eqn:E; simpl in H; [| discriminate].
  injection H as <-. destruct (rmap_keyed _ _ E) as [_ Hf].
  assert (Hf' : Forall (fun p => key (snd p) = Ok (fst p)) (sort_keyed keyed)).
  { rewrite Forall_forall in *. intros p Hp. apply Hf.
    eapply Permutation_in; [symmetry; apply sort_keyed_perm | exact Hp]. }
  pose proof (sort_keyed_sorted keyed) as Hs.
  induction Hs as [| p ps Hs IH Hhd]; simpl; [constructor |].
  inversion Hf' as [| ? ? Hp Hps]; subst.
  constructor; [now apply IH |].
  destruct Hhd as [| q qs Hpq]; simpl; constructor.
  inversion Hps; subst.
  exists (fst p), (fst q). repeat split; assumption.
Qed.
End SortFacts.

Lemma Sorted_neighbours {A : Type} (R : A -> A -> Prop) (l : list A) :
  Sorted R l ->
  forall i a b, nth_error l i = Some a -> nth_error l (S i) = Some b -> R a b.
Proof.
  induction 1 as [| x l Hs IH Hhd]; intros i a b Ha Hb.
  - destruct i; discriminate.
  - destruct i as [| i]; simpl in Ha, Hb.
    + injection Ha as <-. destruct l as [| y l]; [discriminate |].
      simpl in Hb. injection Hb as <-. now inversion Hhd.
    + eapply IH; eassumption.
Qed.

Lemma Sorted_weaken {A : Type} (R R' : A -> A -> Prop) (P : A -> Prop) (l : list A) :
  (forall a b, P a -> P b -> R a b -> R' a b) ->
  Forall P l -> Sorted R l -> Sorted R' l.
Proof.
  intros HR HP Hs. induction Hs as [| x l Hs IH Hhd]; [constructor |].
  inversion HP as [| ? ? Hx Hl]; subst.
  constructor; [now apply IH |].
  destruct Hhd as [| y l' Hxy]; constructor.
  inversion Hl; subst. now apply HR.
Qed.

(** ** Sorting the generated ratios *)

Lemma list_sort_generated : list_sort sort_key generated = Ok sorted_ratios.
Proof. vm_compute. reflexivity. Qed.

Lemma generated_keys_separate :
  forallb (fun a => forallb (key_separates a) generated) generated = true.
Proof. vm_compute. reflexivity. Qed.

Lemma forallb_pairs {A : Type} (f : A -> A -> bool) (l : list A) :
  forallb (fun a => forallb (f a) l) l = true ->
  forall a b, In a l -> In b l -> f a b = true.
Proof.
  intros H a b Ha Hb. rewrite forallb_forall in H.
  specialize (H a Ha). rewrite forallb_forall in H. exact (H b Hb).
Qed.

Lemma keys_ascend_exact (a b : Fraction) :
  In a generated -> In b generated -> keys_ascend sort_key a b -> a <= b.
Proof.
  intros Ha Hb (ka & kb & Hka & Hkb & Hlt).
  pose proof (forallb_pairs _ _ generated_keys_separate b a Hb Ha) as Hsep.
  unfold key_separates in Hsep. rewrite Hka, Hkb, Hlt in Hsep.
  destruct (Qle_bool a b) eqn:E; [now apply Qle_bool_iff | discriminate].
Qed.

Lemma sorted_ratios_perm : Permutation generated sorted_ratios.
Proof. exact (list_sort_perm _ _ _ list_sort_generated). Qed.

Lemma sorted_ratios_ascending : Sorted Qle sorted_ratios.
Proof.
  apply (Sorted_weaken (keys_ascend sort_key) Qle (fun r => In r generated)).
  - exact keys_ascend_exact.
  - rewrite Forall_forall. intros r Hr.
    eapply Permutation_in; [symmetry; apply sorted_ratios_perm | exact Hr].
  - exact (list_sort_sorted _ _ _ list_sort_generated).
Qed.

Lemma sort_ratios_run (f : option pynum) (fr : option (list pyfloat)) :
  PythagoreanSystem.sort_ratios
    {| attr_fundamental := f; attr_ratios := Some generated;
       attr_frequencies := fr |}
  = Ok (tt, {| attr_fundamental := f; attr_ratios := Some sorted_ratios;
               attr_frequencies := fr |}).
Proof.
  unfold PythagoreanSystem.sort_ratios, bind, get_attr, lift, set_ratios.
  cbn [attr_ratios attr_fundamental attr_frequencies].
  change (fun ratio : Fraction =>
            int_truediv (numerator ratio) (denominator ratio)) with sort_key.
  rewrite list_sort_generated. reflexivity.
Qed.

Lemma ordina_rapporti_sort_ratios :
  SistemaPitagorico.ordina_rapporti = PythagoreanSystem.sort_ratios.
Proof. reflexivity. Qed.


Lemma perm_filter_length {A : Type} (p : A -> bool) (l l' : list A) :
  Permutation l l' -> length (filter p l) = length (filter p l').
Proof.
  induction 1 as [| x l l' _ IH | x y l | l l' l'' _ IH1 _ IH2]; simpl.
  - reflexivity.
  - destruct (p x); simpl; congruence.
  - destruct (p x), (p y); reflexivity.
  - congruence.
Qed.

(** C2. [sort_ratios] and [ordina_rapporti], run on the 53 generated
    ratios, leave those same 53 ratios in a list that ascends by exact
    rational value, although the sort compares the floating-point
    quotients. *)
Theorem sort_ratios_ascending (f : option pynum) (fr : option (list pyfloat)) :
  PythagoreanSystem.sort_ratios
    {| attr_fundamental := f; attr_ratios := Some generated;
       attr_frequencies := fr |}
  = Ok (tt, {| attr_fundamental := f; attr_ratios := Some sorted_ratios;
               attr_frequencies := fr |}) /\
  SistemaPitagorico.ordina_rapporti
    {| attr_fundamental := f; attr_ratios := Some generated;
       attr_frequencies := fr |}
  = Ok (tt, {| attr_fundamental := f; attr_ratios := Some sorted_ratios;
               attr_frequencies := fr |}) /\
  Permutation generated sorted_ratios /\
  length sorted_ratios = 53%nat /\
  StronglySorted Qle sorted_ratios /\
  forall i a b,
    nth_error sorted_ratios i = Some a ->
    nth_error sorted_ratios (S i) = Some b -> a <= b.
Proof.
  split; [apply sort_ratios_run |].
  split; [rewrite ordina_rapporti_sort_ratios; apply sort_ratios_run |].
  split; [exact sorted_ratios_perm |].
  split; [reflexivity |].
  split.
  - apply Sorted_StronglySorted; [| exact sorted_ratios_ascending].
    intros a b c. apply Qle_trans.
  - exact (Sorted_neighbours Qle _ sorted_ratios_ascending).
Qed.

(** C3. Sorting permutes the generated sequence: the sorted list holds the
    same fractions with the same multiplicities, so every exact value occurs
    as often after the sort as before, and the length is still 53. *)
Theorem sort_ratios_permutation (f : option pynum) (fr : option (list pyfloat)) :
  PythagoreanSystem.sort_ratios
    {| attr_fundamental := f; attr_ratios := Some generated;
       attr_frequencies := fr |}
  = Ok (tt, {| attr_fundamental := f; attr_ratios := Some sorted_ratios;
               attr_frequencies := fr |}) /\
  Permutation generated sorted_ratios /\
  length sorted_ratios = 53%nat /\
  forall v : Q,
    length (filter (Qeq_bool v) sorted_ratios)
    = length (filter (Qeq_bool v) generated).
Proof.
  split; [apply sort_ratios_run |].
  split; [exact sorted_ratios_perm |].
  split; [reflexivity |].
  intros v. symmetry. apply perm_filter_length. exact sorted_ratios_perm.
Qed.

(** * Floating point *)

(** A comparison between two closed rationals, settled by evaluation. *)
Ltac by_evaluation :=
  lazymatch goal with
  | |- Qle _ _ => apply Qle_bool_iff
  | |- Qeq _ _ => apply Qeq_bool_iff
  | |- Z.le _ _ => apply Z.leb_le
  end;
  vm_compute; reflexivity.


(** ** The rounding at work

    [1 / 3] is the double [0x1.5555555555555p-2]; a quotient half-way
    between two doubles goes to the even one; [2^-1075] is half-way between
    zero and the least subnormal and goes to zero; the first integer that
    [float] refuses is [2^1024 - 2^970]. *)

Example int_truediv_third :
  int_truediv 1 3 = Ok (FFin (6004799503160661 # 18014398509481984)).
Proof. vm_compute. reflexivity. Qed.

Example int_truediv_tie_to_even :
  int_truediv (2 ^ 53 + 1) 1 = Ok (FFin (inject_Z (2 ^ 53))) /\
  int_truediv (2 ^ 53 + 3) 1 = Ok (FFin (inject_Z (2 ^ 53 + 4))).
Proof. split; vm_compute; reflexivity. Qed.

Example int_truediv_underflow :
  int_truediv 1 (2 ^ 1075) = Ok (FFin 0) /\
  int_truediv 3 (2 ^ 1075) = Ok (FFin (Qred (2 ^ (-1073)))).
Proof. split; vm_compute; reflexivity. Qed.

Example float_of_int_limit :
  float_of_int (2 ^ 1024 - 2 ^ 970 - 1) = Ok (FFin (Qred max_float)) /\
  float_of_int (2 ^ 1024 - 2 ^ 970) = Raise OverflowError.
Proof. split; vm_compute; reflexivity. Qed.

Example int_truediv_by_zero : int_truediv 1 0 = Raise ZeroDivisionError.
Proof. reflexivity. Qed.

(** ** Powers of two *)

Lemma pow2_pos (e : Z) : 0 < 2 ^ e.
Proof. apply Qpower_0_lt. reflexivity. Qed.

Lemma pow2_plus (e f : Z) : 2 ^ (e + f) == 2 ^ e * 2 ^ f.
Proof. apply Qpower_plus. discriminate. Qed.

Lemma pow2_le (e f : Z) : (e <= f)%Z -> 2 ^ e <= 2 ^ f.
Proof. intros H. apply Qpower_le_compat_l; [exact H | discriminate]. Qed.

Lemma pow2_lt_inv (e f : Z) : 2 ^ e < 2 ^ f -> (e < f)%Z.
Proof. intros H. apply (Qpower_lt_compat_l_inv 2); [exact H | reflexivity]. Qed.

Lemma pow2_succ (e : Z) : 2 ^ (e + 1) == 2 * 2 ^ e.
Proof. rewrite pow2_plus. change (2 ^ 1) with 2. ring. Qed.

Lemma pow2_inject (n : Z) : (0 <= n)%Z -> inject_Z (2 ^ n) == 2 ^ n.
Proof. intros H. now rewrite Zpower_Qpower. Qed.

(** ** The binary exponent *)

Lemma Zlog2_bounds (n : Z) :
  (0 < n)%Z -> inject_Z n < 2 ^ (Z.log2 n + 1) /\ 2 ^ Z.log2 n <= inject_Z n.
Proof.
  intros Hn. destruct (Z.log2_spec n Hn) as [Hlo Hhi].
  pose proof (Z.log2_nonneg n) as H0.
  split.
  - rewrite <- pow2_inject by lia. rewrite <- Zlt_Qlt.
    now rewrite <- Z.add_1_r in Hhi.
  - rewrite <- pow2_inject by lia. now rewrite <- Zle_Qle.
Qed.

Lemma Q_as_quotient (a : Q) :
  a * inject_Z (Zpos (Qden a)) == inject_Z (Qnum a).
Proof.
  destruct a as [n d]. unfold Qeq, Qmult, inject_Z. simpl. lia.
Qed.

Lemma Qlog2_spec (a : Q) :
  0 < a -> 2 ^ Qlog2 a <= a < 2 ^ (Qlog2 a + 1).
Proof.
  intros Ha. unfold Qlog2.
  set (n := Qnum a). set (d := Zpos (Qden a)).
  assert (Hn : (0 < n)%Z).
  { unfold Qlt in Ha. simpl in Ha. subst n. lia. }
  assert (Hd : (0 < d)%Z) by (subst d; lia).
  destruct (Zlog2_bounds n Hn) as [Hn_hi Hn_lo].
  destruct (Zlog2_bounds d Hd) as [Hd_hi Hd_lo].
  pose proof (Q_as_quotient a) as Hq. fold n d in Hq.
  assert (Hd0 : 0 < inject_Z d) by (change 0 with (inject_Z 0); rewrite <- Zlt_Qlt; lia).
  set (ln := Z.log2 n) in *. set (ld := Z.log2 d) in *.
  assert (Hup : a < 2 ^ (ln - ld + 1)).
  { apply (Qmult_lt_r _ _ (inject_Z d) Hd0). rewrite Hq.
    apply (Qlt_le_trans _ _ _ Hn_hi).
    replace (ln + 1)%Z with ((ln - ld + 1) + ld)%Z by lia.
    rewrite pow2_plus. apply Qmult_le_l; [apply pow2_pos | exact Hd_lo]. }
  assert (Hdn : 2 ^ (ln - ld - 1) < a).
  { apply (Qmult_lt_r _ _ (inject_Z d) Hd0). rewrite Hq.
    apply (Qlt_le_trans _ (2 ^ (ln - ld - 1) * 2 ^ (ld + 1))).
    - apply Qmult_lt_l; [apply pow2_pos | exact Hd_hi].
    - rewrite <- pow2_plus.
      replace (ln - ld - 1 + (ld + 1))%Z with ln by lia. exact Hn_lo. }
  destruct (Qle_bool (2 ^ (ln - ld)) a) eqn:E.
  - apply Qle_bool_iff in E. split; assumption.
  - split; [now apply Qlt_le_weak |].
    replace (ln - ld - 1 + 1)%Z with (ln - ld)%Z by lia.
    apply Qnot_le_lt. intros Hle. apply Qle_bool_iff in Hle. congruence.
Qed.

Lemma Qlog2_unique (a : Q) (e : Z) :
  2 ^ e <= a < 2 ^ (e + 1) -> Qlog2 a = e.
Proof.
  intros [Hlo Hhi].
  assert (Ha : 0 < a) by (apply (Qlt_le_trans _ (2 ^ e)); [apply pow2_pos | exact Hlo]).
  destruct (Qlog2_spec a Ha) as [Hlo' Hhi'].
  assert (H1 : (e < Qlog2 a + 1)%Z).
  { apply pow2_lt_inv. eapply Qle_lt_trans; eassumption. }
  assert (H2 : (Qlog2 a < e + 1)%Z).
  { apply pow2_lt_inv. eapply Qle_lt_trans; eassumption. }
  lia.
Qed.

Lemma Qlog2_mono (a b : Q) : 0 < a -> a <= b -> (Qlog2 a <= Qlog2 b)%Z.
Proof.
  intros Ha Hab.
  assert (Hb : 0 < b) by (eapply Qlt_le_trans; eassumption).
  destruct (Qlog2_spec a Ha) as [Hlo _].
  destruct (Qlog2_spec b Hb) as [_ Hhi].
  assert (H : (Qlog2 a < Qlog2 b + 1)%Z).
  { apply pow2_lt_inv. eapply Qle_lt_trans; [| exact Hhi].
    eapply Qle_trans; eassumption. }
  lia.
Qed.

Lemma Qlog2_Qeq (a b : Q) : 0 < a -> a == b -> Qlog2 a = Qlog2 b.
Proof.
  intros Ha Hab. symmetry. apply Qlog2_unique. rewrite <- Hab.
  now apply Qlog2_spec.
Qed.

(** ** Rounding to the nearest integer *)

Lemma round_half_even_cases (y : Q) :
  let f := Qfloor y in
  (round_half_even y = f /\ y - inject_Z f <= 1 # 2) \/
  (round_half_even y = (f + 1)%Z /\ 1 # 2 <= y - inject_Z f).
Proof.
  intros f. unfold round_half_even. fold f.
  destruct (Qcompare_spec (y - inject_Z f) (1 # 2)) as [H | H | H].
  - destruct (Z.even f); [left | right]; split; try reflexivity;
      rewrite H; apply Qle_refl.
  - left. split; [reflexivity | now apply Qlt_le_weak].
  - right. split; [reflexivity | now apply Qlt_le_weak].
Qed.

Lemma round_half_even_error (y : Q) :
  Qabs (inject_Z (round_half_even y) - y) <= 1 # 2.
Proof.
  pose proof (Qfloor_le y) as Hlo. pose proof (Qlt_floor y) as Hhi.
  rewrite inject_Z_plus in Hhi. change (inject_Z 1) with 1 in Hhi.
  apply Qabs_Qle_condition.
  destruct (round_half_even_cases y) as [[-> H] | [-> H]].
  - split; lra.
  - rewrite inject_Z_plus. change (inject_Z 1) with 1. split; lra.
Qed.

Lemma round_half_even_Z (k : Z) : round_half_even (inject_Z k) = k.
Proof.
  unfold round_half_even. rewrite Qfloor_Z.
  destruct (Qcompare_spec (inject_Z k - inject_Z k) (1 # 2)) as [H | H | H].
  - exfalso. assert (E : inject_Z k - inject_Z k == 0) by ring.
    rewrite E in H. discriminate.
  - reflexivity.
  - exfalso. assert (E : inject_Z k - inject_Z k == 0) by ring.
    rewrite E in H. discriminate.
Qed.

Lemma round_half_even_Qeq (y y' : Q) :
  y == y' -> round_half_even y = round_half_even y'.
Proof.
  intros H. unfold round_half_even.
  rewrite (Qfloor_comp _ _ H).
  assert (E : y - inject_Z (Qfloor y') == y' - inject_Z (Qfloor y'))
    by (rewrite H; reflexivity).
  now rewrite (Qcompare_comp _ _ E _ _ (Qeq_refl (1 # 2))).
Qed.

Lemma round_half_even_mono (y y' : Q) :
  y <= y' -> (round_half_even y <= round_half_even y')%Z.
Proof.
  intros H. pose proof (Qfloor_resp_le _ _ H) as Hf.
  destruct (Z.eq_dec (Qfloor y) (Qfloor y')) as [E | N].
  - unfold round_half_even. rewrite <- E.
    set (f := Qfloor y).
    destruct (Qcompare_spec (y - inject_Z f) (1 # 2)) as [H1 | H1 | H1];
      destruct (Qcompare_spec (y' - inject_Z f) (1 # 2)) as [H2 | H2 | H2];
      try (destruct (Z.even f)); try lia; exfalso; lra.
  - destruct (round_half_even_cases y) as [[-> _] | [-> _]];
      destruct (round_half_even_cases y') as [[-> _] | [-> _]]; lia.
Qed.


(** ** Rounding a positive rational to the binary64 grid *)

Lemma ulp_pos (a : Q) : 0 < ulp a.
Proof. apply pow2_pos. Qed.

Lemma ulp_Qeq (a b : Q) : 0 < a -> a == b -> ulp a = ulp b.
Proof. intros Ha H. unfold ulp. now rewrite (Qlog2_Qeq a b Ha H). Qed.

Lemma ulp_min (a : Q) : 2 ^ (emin - 52) <= ulp a.
Proof. apply pow2_le. lia. Qed.

Lemma Qlog2_normal (a : Q) : 2 ^ emin <= a -> (emin <= Qlog2 a)%Z.
Proof.
  intros H. rewrite <- (Qlog2_unique (2 ^ emin) emin).
  - apply Qlog2_mono; [apply pow2_pos | exact H].
  - split; [apply Qle_refl |]. rewrite pow2_succ.
    pose proof (pow2_pos emin). lra.
Qed.

Lemma ulp_normal (a : Q) : 2 ^ emin <= a -> ulp a <= a * 2 ^ (-52).
Proof.
  intros H. pose proof (Qlog2_normal a H) as Hl.
  assert (Ha : 0 < a) by (eapply Qlt_le_trans; [apply pow2_pos | exact H]).
  unfold ulp. rewrite Z.max_l by lia.
  replace (Qlog2 a - 52)%Z with (Qlog2 a + -52)%Z by lia.
  rewrite pow2_plus. apply Qmult_le_compat_r.
  - now apply Qlog2_spec.
  - apply Qlt_le_weak, pow2_pos.
Qed.

Lemma ulp_subnormal (a : Q) :
  0 < a -> a < 2 ^ emin -> ulp a = 2 ^ (emin - 52).
Proof.
  intros Ha H. unfold ulp. rewrite Z.max_r; [reflexivity |].
  destruct (Qlog2_spec a Ha) as [Hlo _].
  assert (Hlt : (Qlog2 a < emin)%Z).
  { apply pow2_lt_inv. eapply Qle_lt_trans; eassumption. }
  lia.
Qed.

Lemma round_pos_Qeq (a b : Q) : 0 < a -> a == b -> round_pos a == round_pos b.
Proof.
  intros Ha H. unfold round_pos. rewrite (ulp_Qeq a b Ha H).
  rewrite (round_half_even_Qeq (a / ulp b) (b / ulp b)); [reflexivity |].
  now rewrite H.
Qed.

Lemma round_pos_error (a : Q) :
  Qabs (round_pos a - a) <= ulp a * (1 # 2).
Proof.
  pose proof (ulp_pos a) as Hu. unfold round_pos.
  set (u := ulp a) in *.
  assert (E : inject_Z (round_half_even (a / u)) * u - a
              == (inject_Z (round_half_even (a / u)) - a / u) * u).
  { field. intros H0. rewrite H0 in Hu. discriminate. }
  rewrite E, Qabs_Qmult, (Qabs_pos u) by now apply Qlt_le_weak.
  rewrite (Qmult_comm u). apply Qmult_le_compat_r.
  - apply round_half_even_error.
  - now apply Qlt_le_weak.
Qed.

Lemma round_pos_ge_grid (a : Q) (k : Z) :
  inject_Z k * ulp a <= a -> inject_Z k * ulp a <= round_pos a.
Proof.
  intros H. pose proof (ulp_pos a) as Hu. unfold round_pos.
  apply Qmult_le_compat_r; [| now apply Qlt_le_weak].
  rewrite <- Zle_Qle. rewrite <- (round_half_even_Z k) at 1.
  apply round_half_even_mono. now apply Qle_shift_div_l.
Qed.

Lemma round_pos_le_grid (a : Q) (k : Z) :
  a <= inject_Z k * ulp a -> round_pos a <= inject_Z k * ulp a.
Proof.
  intros H. pose proof (ulp_pos a) as Hu. unfold round_pos.
  apply Qmult_le_compat_r; [| now apply Qlt_le_weak].
  rewrite <- Zle_Qle. rewrite <- (round_half_even_Z k) at 1.
  apply round_half_even_mono. now apply Qle_shift_div_r.
Qed.

Lemma round_pos_exact (a : Q) (k : Z) :
  a == inject_Z k * ulp a -> round_pos a == a.
Proof.
  intros H. apply Qle_antisym.
  - rewrite H at 2. apply round_pos_le_grid. rewrite <- H. apply Qle_refl.
  - rewrite H at 1. apply round_pos_ge_grid. rewrite <- H. apply Qle_refl.
Qed.

(** The binade of [a]: [a] lies below its upper end, and above its lower
    end unless [a] is subnormal. *)
Lemma binade_upper (a : Q) :
  0 < a -> a < inject_Z (2 ^ 53) * ulp a.
Proof.
  intros Ha. destruct (Qlog2_spec a Ha) as [_ Hhi].
  unfold ulp. rewrite pow2_inject, <- pow2_plus by lia.
  eapply Qlt_le_trans; [exact Hhi |]. apply pow2_le. lia.
Qed.

Lemma round_pos_mono (a b : Q) :
  0 < a -> a <= b -> round_pos a <= round_pos b.
Proof.
  intros Ha Hab.
  assert (Hb : 0 < b) by (eapply Qlt_le_trans; eassumption).
  pose proof (Qlog2_mono a b Ha Hab) as Hl.
  destruct (Z.eq_dec (Z.max (Qlog2 a) emin) (Z.max (Qlog2 b) emin)) as [E | N].
  - unfold round_pos, ulp. rewrite E.
    apply Qmult_le_compat_r; [| apply Qlt_le_weak, pow2_pos].
    rewrite <- Zle_Qle. apply round_half_even_mono.
    apply Qmult_le_compat_r; [exact Hab |].
    apply Qlt_le_weak, Qinv_lt_0_compat, pow2_pos.
  - assert (Hlt : (Z.max (Qlog2 a) emin < Qlog2 b)%Z) by lia.
    apply (Qle_trans _ (inject_Z (2 ^ 53) * ulp a)).
    + apply round_pos_le_grid. now apply Qlt_le_weak, binade_upper.
    + assert (Hgrid : inject_Z (2 ^ 53) * ulp a <= inject_Z (2 ^ 52) * ulp b).
      { unfold ulp. rewrite !pow2_inject, <- !pow2_plus by lia.
        apply pow2_le. lia. }
      apply (Qle_trans _ _ _ Hgrid). apply round_pos_ge_grid.
      unfold ulp. rewrite pow2_inject, <- pow2_plus by lia.
      rewrite Z.max_l by lia.
      replace (52 + (Qlog2 b - 52))%Z with (Qlog2 b) by lia.
      now apply Qlog2_spec.
Qed.

Lemma round_pos_positive (a : Q) : 2 ^ (emin - 52) <= a -> 2 ^ (emin - 52) <= round_pos a.
Proof.
  intros H.
  assert (H0 : 0 < 2 ^ (emin - 52)) by apply pow2_pos.
  apply (Qle_trans _ (round_pos (2 ^ (emin - 52)))).
  - apply Qle_lteq. right. symmetry. apply (round_pos_exact _ 1).
    rewrite ulp_subnormal; [ring | exact H0 |].
    apply Qpower_lt_compat_l; [lia | reflexivity].
  - now apply round_pos_mono.
Qed.


(** ** Rounding to binary64 *)

Lemma FFin_inj (p q : Q) : FFin p = FFin q -> p = q.
Proof. intros H. now inversion H. Qed.

Lemma binary64_pos (x : Q) :
  0 < x ->
  binary64 x = if Qle_bool (2 ^ emax) (round_pos x) then FInf false
               else FFin (Qred (round_pos x)).
Proof.
  intros H. unfold binary64.
  now rewrite (proj1 (Qgt_alt x 0) H).
Qed.

Lemma binary64_neg (x : Q) :
  x < 0 ->
  binary64 x = if Qle_bool (2 ^ emax) (round_pos (- x)) then FInf true
               else FFin (Qred (- round_pos (- x))).
Proof.
  intros H. unfold binary64.
  now rewrite (proj1 (Qlt_alt x 0) H).
Qed.

Lemma binary64_zero (x : Q) : x == 0 -> binary64 x = FFin 0.
Proof.
  intros H. unfold binary64.
  now rewrite (proj1 (Qeq_alt x 0) H).
Qed.

Lemma Qle_bool_Qeq (a b c : Q) : b == c -> Qle_bool a b = Qle_bool a c.
Proof.
  intros H. destruct (Qle_bool a c) eqn:E.
  - apply Qle_bool_iff. rewrite H. now apply Qle_bool_iff.
  - destruct (Qle_bool a b) eqn:E'; [| reflexivity].
    apply Qle_bool_iff in E'. rewrite H in E'.
    apply Qle_bool_iff in E'. congruence.
Qed.

Lemma binary64_Qeq (x y : Q) : x == y -> binary64 x = binary64 y.
Proof.
  intros H. destruct (Q_dec x 0) as [[Hlt | Hgt] | Hz].
  - assert (Hy : y < 0) by now rewrite <- H.
    assert (Hn : 0 < - x) by lra.
    assert (E : round_pos (- x) == round_pos (- y))
      by (apply round_pos_Qeq; [exact Hn | now rewrite H]).
    rewrite (binary64_neg x Hlt), (binary64_neg y Hy).
    rewrite (Qle_bool_Qeq _ _ _ E).
    destruct (Qle_bool (2 ^ emax) (round_pos (- y))); [reflexivity |].
    f_equal. apply Qred_complete. now rewrite E.
  - assert (Hy : 0 < y) by now rewrite <- H.
    assert (E : round_pos x == round_pos y) by now apply round_pos_Qeq.
    rewrite (binary64_pos x Hgt), (binary64_pos y Hy).
    rewrite (Qle_bool_Qeq _ _ _ E).
    destruct (Qle_bool (2 ^ emax) (round_pos y)); [reflexivity |].
    f_equal. now apply Qred_complete.
  - rewrite (binary64_zero x Hz). symmetry. apply binary64_zero.
    now rewrite <- H.
Qed.

Lemma binary64_opp (x : Q) : binary64 (- x) = float_neg (binary64 x).
Proof.
  destruct (Q_dec x 0) as [[Hlt | Hgt] | Hz].
  - assert (Hn : 0 < - x) by lra.
    rewrite (binary64_pos _ Hn), (binary64_neg _ Hlt).
    destruct (Qle_bool (2 ^ emax) (round_pos (- x))); cbn [float_neg negb]; [reflexivity |].
    f_equal. apply Qred_complete. rewrite Qred_correct. ring.
  - assert (Hn : - x < 0) by lra.
    assert (E : round_pos (- - x) == round_pos x)
      by (apply round_pos_Qeq; [lra | ring]).
    rewrite (binary64_pos _ Hgt), (binary64_neg _ Hn).
    rewrite (Qle_bool_Qeq _ _ _ E).
    destruct (Qle_bool (2 ^ emax) (round_pos x)); cbn [float_neg negb]; [reflexivity |].
    f_equal. apply Qred_complete. rewrite Qred_correct, E. reflexivity.
  - assert (Hn : - x == 0) by (rewrite Hz; reflexivity).
    now rewrite (binary64_zero _ Hz), (binary64_zero _ Hn).
Qed.

Lemma binary64_mono_pos (x y : Q) :
  0 < x -> x <= y -> float_le (binary64 x) (binary64 y) = true.
Proof.
  intros Hx Hxy.
  assert (Hy : 0 < y) by (eapply Qlt_le_trans; eassumption).
  pose proof (round_pos_mono x y Hx Hxy) as Hr.
  rewrite (binary64_pos x Hx), (binary64_pos y Hy).
  destruct (Qle_bool (2 ^ emax) (round_pos x)) eqn:Ex;
    destruct (Qle_bool (2 ^ emax) (round_pos y)) eqn:Ey;
    cbn [float_le negb]; try reflexivity.
  - apply Qle_bool_iff in Ex.
    assert (H : 2 ^ emax <= round_pos y) by (eapply Qle_trans; eassumption).
    apply Qle_bool_iff in H. congruence.
  - apply Qle_bool_iff. now rewrite !Qred_correct.
Qed.

Lemma max_float_fixed : round_pos max_float == max_float.
Proof. by_evaluation. Qed.

Lemma max_float_finite : max_float < 2 ^ emax.
Proof.
  unfold max_float, emax. pose proof (pow2_pos 971). lra.
Qed.

(** A positive real between the least and the greatest positive binary64
    numbers rounds to a finite float in that same range. *)
Lemma binary64_in_range (x : Q) :
  2 ^ (emin - 52) <= x <= max_float ->
  exists q, binary64 x = FFin q /\ 2 ^ (emin - 52) <= q <= max_float.
Proof.
  intros [Hlo Hhi].
  assert (Hx : 0 < x) by (eapply Qlt_le_trans; [apply pow2_pos | exact Hlo]).
  pose proof (round_pos_positive x Hlo) as Hr_lo.
  assert (Hr_hi : round_pos x <= max_float).
  { rewrite <- max_float_fixed. now apply round_pos_mono. }
  exists (Qred (round_pos x)). rewrite (binary64_pos x Hx).
  destruct (Qle_bool (2 ^ emax) (round_pos x)) eqn:E.
  - apply Qle_bool_iff in E. pose proof max_float_finite. exfalso. lra.
  - split; [reflexivity |]. rewrite Qred_correct. split; assumption.
Qed.

(** The rounding error: half a unit in the last place. *)
Lemma binary64_error_pos (x q : Q) :
  0 < x -> binary64 x = FFin q -> Qabs (q - x) <= ulp x * (1 # 2).
Proof.
  intros Hx H. rewrite (binary64_pos x Hx) in H.
  destruct (Qle_bool (2 ^ emax) (round_pos x)); [discriminate |].
  apply FFin_inj in H. subst q. rewrite Qred_correct. apply round_pos_error.
Qed.

Lemma binary64_error (x q : Q) :
  binary64 x = FFin q ->
  Qabs (q - x) <= 2 ^ (-53) * Qabs x + 2 ^ (emin - 53).
Proof.
  assert (Hpos : forall x q, 0 < x -> binary64 x = FFin q ->
                  Qabs (q - x) <= 2 ^ (-53) * x + 2 ^ (emin - 53)).
  { clear x q. intros x q Hx H.
    apply (Qle_trans _ _ _ (binary64_error_pos x q Hx H)).
    pose proof (pow2_pos (emin - 53)) as Hsub.
    destruct (Qlt_le_dec x (2 ^ emin)) as [Hs | Hn].
    - rewrite (ulp_subnormal x Hx Hs).
      replace (emin - 52)%Z with ((emin - 53) + 1)%Z by lia.
      rewrite pow2_succ. change (2 ^ (-53)) with (1 # 9007199254740992). lra.
    - pose proof (ulp_normal x Hn) as Hu.
      change (2 ^ (-52)) with (1 # 4503599627370496) in Hu.
      change (2 ^ (-53)) with (1 # 9007199254740992). lra. }
  intros H. destruct (Q_dec x 0) as [[Hlt | Hgt] | Hz].
  - assert (Hn : 0 < - x) by lra.
    pose proof (binary64_opp x) as Ho. rewrite H in Ho. cbn [float_neg] in Ho.
    pose proof (Hpos _ _ Hn Ho) as Hb.
    rewrite Qred_correct in Hb.
    rewrite (Qabs_neg x) by lra.
    assert (E : - q - - x == - (q - x)) by ring.
    now rewrite E, Qabs_opp in Hb.
  - rewrite (Qabs_pos x) by lra. now apply Hpos.
  - rewrite (binary64_zero x Hz) in H. apply FFin_inj in H. subst q.
    rewrite Hz. pose proof (pow2_pos (emin - 53)).
    change (Qabs (0 - 0)) with 0. change (Qabs 0) with 0. lra.
Qed.

Lemma binary64_error_normal (x q : Q) :
  2 ^ emin <= Qabs x -> binary64 x = FFin q ->
  Qabs (q - x) <= 2 ^ (-53) * Qabs x.
Proof.
  assert (Hpos : forall x q, 2 ^ emin <= x -> binary64 x = FFin q ->
                  Qabs (q - x) <= 2 ^ (-53) * x).
  { clear x q. intros x q Hn H.
    assert (Hx : 0 < x) by (eapply Qlt_le_trans; [apply pow2_pos | exact Hn]).
    apply (Qle_trans _ _ _ (binary64_error_pos x q Hx H)).
    pose proof (ulp_normal x Hn) as Hu.
    change (2 ^ (-52)) with (1 # 4503599627370496) in Hu.
    change (2 ^ (-53)) with (1 # 9007199254740992). lra. }
  intros Hn H. pose proof (pow2_pos emin) as Hp.
  destruct (Qlt_le_dec x 0) as [Hlt | Hge].
  - rewrite (Qabs_neg x) in * by lra.
    pose proof (binary64_opp x) as Ho. rewrite H in Ho. cbn [float_neg] in Ho.
    pose proof (Hpos _ _ Hn Ho) as Hb.
    rewrite Qred_correct in Hb.
    assert (E : - q - - x == - (q - x)) by ring.
    now rewrite E, Qabs_opp in Hb.
  - rewrite (Qabs_pos x) in * by lra. now apply Hpos.
Qed.

(** A positive binary64 number is at least the smallest subnormal. *)
Lemma binary64_positive_min (g : Q) :
  0 < g -> binary64 g = FFin g -> 2 ^ (emin - 52) <= g.
Proof.
  intros Hg H. rewrite (binary64_pos g Hg) in H.
  destruct (Qle_bool (2 ^ emax) (round_pos g)); [discriminate |].
  apply FFin_inj in H.
  assert (E : round_pos g == g) by (rewrite <- H at 2; symmetry; apply Qred_correct).
  unfold round_pos in E. set (m := round_half_even (g / ulp g)) in *.
  pose proof (ulp_pos g) as Hu. pose proof (ulp_min g) as Hmin.
  assert (Hm : (0 < m)%Z).
  { destruct (Z_lt_le_dec 0 m) as [Hm | Hm]; [exact Hm | exfalso].
    assert (Hle : inject_Z m <= 0) by (change 0 with (inject_Z 0); now rewrite <- Zle_Qle).
    assert (inject_Z m * ulp g <= 0).
    { rewrite <- (Qmult_0_l (ulp g)). apply Qmult_le_compat_r; [exact Hle | lra]. }
    lra. }
  assert (Hm1 : 1 <= inject_Z m) by (change 1 with (inject_Z 1); rewrite <- Zle_Qle; lia).
  rewrite <- E. apply (Qle_trans _ (ulp g)); [exact Hmin |].
  rewrite <- (Qmult_1_l (ulp g)) at 1.
  apply Qmult_le_compat_r; [exact Hm1 | lra].
Qed.

(** * Frequencies *)

(** ** Comprehensions that may raise *)

Lemma rmap_Forall2 {A B : Type} (f : A -> result B) (l : list A) :
  forall l', rmap f l = Ok l' <-> Forall2 (fun a b => f a = Ok b) l l'.
Proof.
  induction l as [| a l IH]; intros l'; simpl.
  - split; intros H.
    + injection H as <-. constructor.
    + inversion H. reflexivity.
  - split; intros H.
    + destruct (f a) as [b |] eqn:Ea; simpl in H; [| discriminate].
      destruct (rmap f l) as [bs |]; simpl in H; [| discriminate].
      injection H as <-. constructor; [exact Ea | now apply IH].
    + inversion H as [| ? b ? bs Ha Hl]; subst.
      rewrite Ha. simpl. apply IH in Hl. rewrite Hl. reflexivity.
Qed.

Lemma rmap_total {A B : Type} (f : A -> result B) (P : B -> Prop) (l : list A) :
  (forall a, In a l -> exists b, f a = Ok b /\ P b) ->
  exists l', rmap f l = Ok l' /\ Forall P l'.
Proof.
  induction l as [| a l IH]; intros H; simpl.
  - exists []. split; constructor.
  - destruct (H a (or_introl eq_refl)) as (b & Hb & Pb).
    destruct IH as (bs & Hbs & Pbs); [intros; apply H; now right |].
    exists (b :: bs). rewrite Hb, Hbs. split; [reflexivity | now constructor].
Qed.

Lemma Forall2_nth {A B : Type} (R : A -> B -> Prop) (l : list A) (l' : list B) :
  Forall2 R l l' ->
  forall i a, nth_error l i = Some a ->
              exists b, nth_error l' i = Some b /\ R a b.
Proof.
  induction 1 as [| x y l l' Hxy _ IH]; intros i a Ha.
  - destruct i; discriminate.
  - destruct i as [| i]; simpl in *.
    + injection Ha as <-. eauto.
    + now apply IH.
Qed.

Lemma Forall2_sorted {A B : Type} (R : A -> B -> Prop)
      (RA : A -> A -> Prop) (RB : B -> B -> Prop) (P : A -> Prop)
      (l : list A) (l' : list B) :
  (forall a a' b b', P a -> P a' -> RA a a' -> R a b -> R a' b' -> RB b b') ->
  Forall P l -> Sorted RA l -> Forall2 R l l' -> Sorted RB l'.
Proof.
  intros Hmono HP Hs HF. revert HP Hs.
  induction HF as [| x y l l' Hxy HF IH]; intros HP Hs; [constructor |].
  inversion HP as [| ? ? Px Pl]; subst.
  inversion Hs as [| ? ? Hs' Hhd]; subst.
  constructor; [now apply IH |].
  destruct HF as [| x' y' l l' Hxy' _]; constructor.
  inversion Hhd; subst. inversion Pl; subst.
  apply (Hmono x x' y y'); assumption.
Qed.

(** ** One frequency *)

Lemma float_of_Fraction_binary64 (a : Fraction) :
  float_of_Fraction a = finite_or_overflow (binary64 a).
Proof.
  unfold float_of_Fraction, int_truediv, numerator, denominator.
  cbn [Z.eqb].
  assert (E : inject_Z (Qnum a) / inject_Z (Zpos (Qden a)) == a).
  { rewrite <- (Q_as_quotient a). field.
    intros H. discriminate H. }
  now rewrite (binary64_Qeq _ _ E).
Qed.

Lemma frequency_of_int (n : Z) (r : Fraction) :
  frequency_of (PyInt n) r = finite_or_overflow (binary64 (r * inject_Z n)).
Proof.
  unfold frequency_of, Fraction_mul_num, Fraction_mul_int. cbn [rbind to_float].
  rewrite float_of_Fraction_binary64.
  now rewrite (binary64_Qeq _ _ (Qred_correct (r * inject_Z n))).
Qed.

Lemma ratio_in_range_spec (r : Fraction) :
  ratio_in_range r = true ->
  1 <= r <= 2 - 2 ^ (-52) /\
  exists k, float_of_Fraction r = Ok (FFin k) /\ binary64 r = FFin k /\
            1 <= k <= 2 - 2 ^ (-52).
Proof.
  unfold ratio_in_range. intros H.
  destruct (float_of_Fraction r) as [[k | |] |] eqn:E; try discriminate.
  rewrite !andb_true_iff, !Qle_bool_iff in H.
  destruct H as [[[H1 H2] H3] H4].
  split; [split; assumption |]. exists k. split; [reflexivity |].
  split; [| split; assumption].
  rewrite float_of_Fraction_binary64 in E.
  destruct (binary64 r); simpl in E; congruence.
Qed.

Lemma frequency_of_float (g : pyfloat) (r : Fraction) (k : Q) :
  float_of_Fraction r = Ok (FFin k) ->
  frequency_of (PyFloat g) r = Ok (float_mul (FFin k) g).
Proof.
  intros H. unfold frequency_of, Fraction_mul_num. now rewrite H.
Qed.

Lemma sorted_ratios_in_range : forallb ratio_in_range sorted_ratios = true.
Proof. vm_compute. reflexivity. Qed.

Lemma sorted_ratio_in_range (r : Fraction) :
  In r sorted_ratios -> ratio_in_range r = true.
Proof.
  intros H. pose proof sorted_ratios_in_range as Hall.
  rewrite forallb_forall in Hall. now apply Hall.
Qed.

(** ** Running the methods *)

Lemma comprehension_frequencies (F : pynum) (self : instance) (rs : list Fraction) :
  attr_fundamental self = Some F ->
  comprehension
    (fun ratio =>
       fundamental <- get_attr attr_fundamental ;;
       lift (rbind (Fraction_mul_num ratio fundamental) to_float))
    rs self
  = rbind (rmap (frequency_of F) rs) (fun fs => Ok (fs, self)).
Proof.
  intros HF. induction rs as [| r rs IH]; [reflexivity |].
  cbn [comprehension rmap]. unfold bind at 1. unfold bind at 1.
  unfold get_attr at 1. rewrite HF. unfold lift at 1.
  fold (frequency_of F r).
  destruct (frequency_of F r) as [y |]; cbn [rbind]; [| reflexivity].
  unfold bind at 1. rewrite IH.
  destruct (rmap (frequency_of F) rs) as [ys |]; reflexivity.
Qed.

Lemma calculate_frequencies_run (F : pynum) (rs : list Fraction) :
  PythagoreanSystem.calculate_frequencies (configured F rs)
  = rbind (rmap (frequency_of F) rs) (fun fs => Ok (fs, configured F rs)).
Proof.
  unfold PythagoreanSystem.calculate_frequencies, bind at 1.
  cbn [get_attr configured attr_ratios].
  now apply comprehension_frequencies.
Qed.

Lemma calcola_frequenze_calculate_frequencies :
  SistemaPitagorico.calcola_frequenze = PythagoreanSystem.calculate_frequencies.
Proof. reflexivity. Qed.

Lemma construct_run (f o : pynum) :
  PythagoreanSystem.construct f o
  = rbind (pynum_mul f o) (fun F =>
    rbind (rmap (frequency_of F) sorted_ratios) (fun fs =>
    Ok {| attr_fundamental := Some F;
          attr_ratios := Some sorted_ratios;
          attr_frequencies := Some fs |})).
Proof.
  unfold PythagoreanSystem.construct, PythagoreanSystem.init.
  unfold bind at 1. unfold lift at 1.
  destruct (pynum_mul f o) as [F | e]; cbn [rbind]; [| reflexivity].
  unfold bind at 1. unfold set_fundamental at 1. cbn [new_instance attr_ratios attr_frequencies].
  unfold bind at 1. rewrite generate_ratios_generated.
  unfold bind at 1. unfold set_ratios at 1. cbn [attr_fundamental attr_ratios attr_frequencies].
  unfold bind at 1. rewrite sort_ratios_run.
  unfold bind at 1.
  change {| attr_fundamental := Some F; attr_ratios := Some sorted_ratios;
            attr_frequencies := None |} with (configured F sorted_ratios).
  rewrite calculate_frequencies_run.
  destruct (rmap (frequency_of F) sorted_ratios) as [fs | e]; reflexivity.
Qed.

Lemma construct_twin :
  SistemaPitagorico.construct = PythagoreanSystem.construct.
Proof. reflexivity. Qed.

(** ** Scaling keeps finite values finite *)

Lemma top_scaled : (2 - 2 ^ (-52)) * 2 ^ 1023 == max_float.
Proof. by_evaluation. Qed.

Lemma binary64_scaled_pos (c x : Q) :
  1 <= c <= 2 - 2 ^ (-52) -> 2 ^ (emin - 52) <= x <= 2 ^ 1023 ->
  exists q, binary64 (c * x) = FFin q /\ 0 < q.
Proof.
  intros [Hc1 Hc2] [Hx1 Hx2].
  pose proof (pow2_pos (emin - 52)) as Hmin.
  destruct (binary64_in_range (c * x)) as (q & Hq & Hlo & _).
  - split.
    + apply (Qle_trans _ (1 * x)); [lra |].
      apply Qmult_le_compat_r; [exact Hc1 | lra].
    + rewrite <- top_scaled.
      apply (Qle_trans _ ((2 - 2 ^ (-52)) * x)).
      * apply Qmult_le_compat_r; [exact Hc2 | lra].
      * apply Qmult_le_l; [reflexivity | exact Hx2].
  - exists q. split; [exact Hq | lra].
Qed.

Lemma binary64_scaled (c x : Q) :
  1 <= c <= 2 - 2 ^ (-52) ->
  x == 0 \/ 2 ^ (emin - 52) <= Qabs x <= 2 ^ 1023 ->
  exists q, binary64 (c * x) = FFin q /\ same_sign x q.
Proof.
  intros Hc [Hz | Hx].
  - exists 0. split.
    + apply binary64_zero. rewrite Hz. ring.
    + unfold same_sign. repeat split; intros; lra.
  - pose proof (pow2_pos (emin - 52)) as Hmin.
    destruct (Qlt_le_dec x 0) as [Hneg | Hpos].
    + rewrite (Qabs_neg x) in Hx by lra.
      destruct (binary64_scaled_pos c (- x) Hc Hx) as (q & Hq & Hq0).
      exists (Qred (- q)). split.
      * assert (E : c * x == - (c * - x)) by ring.
        now rewrite (binary64_Qeq _ _ E), binary64_opp, Hq.
      * unfold same_sign. rewrite Qred_correct. repeat split; intros; lra.
    + rewrite (Qabs_pos x) in Hx by lra.
      destruct (binary64_scaled_pos c x Hc Hx) as (q & Hq & Hq0).
      exists q. split; [exact Hq |].
      unfold same_sign. repeat split; intros; lra.
Qed.

Lemma binary64_magnitude (g : Q) :
  binary64 g = FFin g -> g == 0 \/ 2 ^ (emin - 52) <= Qabs g.
Proof.
  intros H. destruct (Q_dec g 0) as [[Hlt | Hgt] | Hz].
  - right. rewrite (Qabs_neg g) by lra.
    rewrite <- (Qred_correct (- g)). apply binary64_positive_min.
    + rewrite Qred_correct. lra.
    + rewrite (binary64_Qeq _ _ (Qred_correct (- g))), binary64_opp, H.
      reflexivity.
  - right. rewrite (Qabs_pos g) by lra. now apply binary64_positive_min.
  - now left.
Qed.

Lemma int_magnitude (n : Z) :
  inject_Z n == 0 \/ 2 ^ (emin - 52) <= Qabs (inject_Z n).
Proof.
  destruct (Z.eq_dec n 0) as [-> | Hn]; [left; reflexivity | right].
  apply (Qle_trans _ 1).
  - by_evaluation.
  - change (Qabs (inject_Z n)) with (inject_Z (Z.abs n)).
    change 1 with (inject_Z 1). rewrite <- Zle_Qle. lia.
Qed.

(** A fundamental of magnitude at most [2^1023] gives a finite frequency
    of its own sign for every ratio of the scale. *)
Lemma frequency_in_range (F : pynum) (x : Q) (r : Fraction) :
  well_formed F -> value_of F = Some x -> Qabs x <= 2 ^ 1023 ->
  ratio_in_range r = true ->
  exists q, frequency_of F r = Ok (FFin q) /\ same_sign x q.
Proof.
  intros Hwf Hv Hx Hr.
  destruct (ratio_in_range_spec r Hr) as (Hr_rng & k & Hk & _ & Hk_rng).
  destruct F as [n | [g | |]]; simpl in Hv; try discriminate;
    injection Hv as <-.
  - destruct (binary64_scaled r (inject_Z n) Hr_rng) as (q & Hq & Hs).
    + destruct (int_magnitude n) as [H0 | Hm]; [now left | right; now split].
    + exists q. rewrite frequency_of_int, Hq. split; [reflexivity | exact Hs].
  - simpl in Hwf.
    destruct (binary64_scaled k g Hk_rng) as (q & Hq & Hs).
    + destruct (binary64_magnitude g Hwf) as [H0 | Hm]; [now left | right; now split].
    + exists q. rewrite (frequency_of_float _ _ _ Hk). cbn [float_mul].
      rewrite Hq. split; [reflexivity | exact Hs].
Qed.

(** ** Accuracy of one frequency *)

Lemma finite_or_overflow_inv (f y : pyfloat) :
  finite_or_overflow f = Ok y -> f = y.
Proof. destruct f; simpl; intros H; congruence. Qed.

Lemma finite_or_overflow_finite (f : pyfloat) (s : bool) :
  finite_or_overflow f <> Ok (FInf s).
Proof. destruct f; simpl; congruence. Qed.

Lemma binary64_not_nan (x : Q) : binary64 x <> FNan.
Proof.
  unfold binary64.
  destruct (Qcompare x 0); try discriminate;
    match goal with |- context [Qle_bool ?a ?b] => destruct (Qle_bool a b) end;
    discriminate.
Qed.

Lemma frequency_of_int_finite (n : Z) (r : Fraction) (y : pyfloat) :
  frequency_of (PyInt n) r = Ok y ->
  exists q, y = FFin q /\ binary64 (r * inject_Z n) = FFin q.
Proof.
  rewrite frequency_of_int. intros H.
  destruct y as [q | s |].
  - apply finite_or_overflow_inv in H. now exists q.
  - exfalso. exact (finite_or_overflow_finite _ _ H).
  - apply finite_or_overflow_inv in H.
    exfalso. exact (binary64_not_nan _ H).
Qed.

Lemma frequency_of_int_error (n : Z) (r : Fraction) (q : Q) :
  1 <= r -> frequency_of (PyInt n) r = Ok (FFin q) ->
  Qabs (q - r * inject_Z n) <= 2 ^ (-53) * Qabs (r * inject_Z n).
Proof.
  intros Hr H. apply frequency_of_int_finite in H.
  destruct H as (q' & Hq' & Hb). apply FFin_inj in Hq'. subst q'.
  destruct (int_magnitude n) as [H0 | Hm].
  - assert (E : r * inject_Z n == 0) by (rewrite H0; ring).
    rewrite (binary64_zero _ E) in Hb. apply FFin_inj in Hb. subst q.
    rewrite E. by_evaluation.
  - apply binary64_error_normal; [| exact Hb].
    assert (H1 : 1 <= Qabs (inject_Z n)).
    { destruct (Z.eq_dec n 0) as [-> | Hn].
      - exfalso. revert Hm. apply Qlt_not_le. reflexivity.
      - change (Qabs (inject_Z n)) with (inject_Z (Z.abs n)).
        change 1 with (inject_Z 1). rewrite <- Zle_Qle. lia. }
    rewrite Qabs_Qmult, (Qabs_pos r) by lra.
    apply (Qle_trans _ 1); [by_evaluation |].
    apply (Qle_trans _ (1 * Qabs (inject_Z n))); [lra |].
    apply Qmult_le_compat_r; [exact Hr | apply Qabs_nonneg].
Qed.

Lemma frequency_of_float_error (g : Q) (r : Fraction) (q : Q) :
  ratio_in_range r = true ->
  frequency_of (PyFloat (FFin g)) r = Ok (FFin q) ->
  Qabs (q - r * g) <= 2 ^ (-51) * Qabs (r * g) + 2 ^ (emin - 53).
Proof.
  intros Hr H.
  destruct (ratio_in_range_spec r Hr) as ([Hr1 _] & k & Hk & Hbk & [Hk1 _]).
  rewrite (frequency_of_float _ _ _ Hk) in H. cbn [float_mul] in H.
  injection H as H.
  pose proof (binary64_error _ _ H) as Hq.
  assert (Hrn : 2 ^ emin <= Qabs r).
  { rewrite (Qabs_pos r) by lra.
    apply (Qle_trans _ 1); [by_evaluation | exact Hr1]. }
  pose proof (binary64_error_normal _ _ Hrn Hbk) as Hkr.
  rewrite (Qabs_pos r) in Hkr by lra.
  rewrite Qabs_Qmult, (Qabs_pos k) in Hq by lra.
  rewrite Qabs_Qmult, (Qabs_pos r) by lra.
  assert (E : q - r * g == (q - k * g) + (k - r) * g) by ring.
  rewrite E. eapply Qle_trans; [apply Qabs_triangle |].
  rewrite (Qabs_Qmult (k - r)).
  pose proof (Qabs_nonneg g) as HA. set (A := Qabs g) in *.
  assert (H1 : Qabs (k - r) * A <= 2 ^ (-53) * r * A)
    by (apply Qmult_le_compat_r; assumption).
  assert (Hk2 : k <= 2 * r).
  { apply Qabs_Qle_condition in Hkr.
    change (2 ^ (-53)) with (1 # 9007199254740992) in Hkr. lra. }
  assert (H2 : k * A <= 2 * r * A) by (apply Qmult_le_compat_r; assumption).
  assert (H3 : 0 <= r * A) by (apply Qmult_le_0_compat; lra).
  change (2 ^ (-53)) with (1 # 9007199254740992) in *.
  change (2 ^ (-51)) with (1 # 2251799813685248).
  set (eta := 2 ^ (emin - 53)) in *.
  set (d1 := Qabs (q - k * g)) in *. set (d2 := Qabs (k - r) * A) in *.
  lra.
Qed.

(** ** Order of the frequencies *)

Lemma sorted_ratios_keys_ascend : Sorted (keys_ascend sort_key) sorted_ratios.
Proof. exact (list_sort_sorted _ _ _ list_sort_generated). Qed.

Lemma frequency_of_int_mono (n : Z) (r r' : Fraction) (y y' : pyfloat) :
  (0 < n)%Z -> 1 <= r -> r <= r' ->
  frequency_of (PyInt n) r = Ok y -> frequency_of (PyInt n) r' = Ok y' ->
  float_le y y' = true.
Proof.
  intros Hn Hr Hrr H H'.
  rewrite frequency_of_int in H, H'.
  apply finite_or_overflow_inv in H, H'. subst y y'.
  assert (Hn1 : 1 <= inject_Z n)
    by (change 1 with (inject_Z 1); rewrite <- Zle_Qle; lia).
  apply binary64_mono_pos.
  - apply (Qlt_le_trans _ (1 * 1)); [reflexivity |].
    apply Qmult_le_compat_nonneg; split; lra.
  - apply Qmult_le_compat_r; [exact Hrr | lra].
Qed.

Lemma frequency_of_float_mono (g : pyfloat) (r r' : Fraction) (y y' : pyfloat) :
  float_lt (FFin 0) g = true ->
  ratio_in_range r = true -> ratio_in_range r' = true ->
  keys_ascend sort_key r r' ->
  frequency_of (PyFloat g) r = Ok y -> frequency_of (PyFloat g) r' = Ok y' ->
  float_le y y' = true.
Proof.
  intros Hg Hr Hr' (ka & kb & Hka & Hkb & Hlt) H H'.
  destruct (ratio_in_range_spec r Hr) as (_ & k & Hk & _ & [Hk1 _]).
  destruct (ratio_in_range_spec r' Hr') as (_ & k' & Hk' & _ & [Hk1' _]).
  change (sort_key r) with (float_of_Fraction r) in Hka.
  change (sort_key r') with (float_of_Fraction r') in Hkb.
  rewrite Hk in Hka. rewrite Hk' in Hkb.
  injection Hka as <-. injection Hkb as <-.
  cbn [float_lt] in Hlt. apply negb_false_iff, Qle_bool_iff in Hlt.
  rewrite (frequency_of_float _ _ _ Hk) in H.
  rewrite (frequency_of_float _ _ _ Hk') in H'.
  injection H as <-. injection H' as <-.
  destruct g as [g | [] |]; cbn [float_lt negb] in Hg; try discriminate.
  - apply negb_true_iff in Hg.
    assert (Hg0 : 0 < g).
    { apply Qnot_le_lt. intros Hle. apply Qle_bool_iff in Hle. congruence. }
    cbn [float_mul]. apply binary64_mono_pos.
    + apply (Qlt_le_trans _ (1 * g)); [lra |].
      apply Qmult_le_compat_r; lra.
    + apply Qmult_le_compat_r; lra.
  - cbn [float_mul].
    rewrite (proj1 (Qgt_alt k 0)) by lra.
    rewrite (proj1 (Qgt_alt k' 0)) by lra.
    reflexivity.
Qed.

Lemma frequencies_ascend (F : pynum) (fs : list pyfloat) :
  is_positive F = true ->
  rmap (frequency_of F) sorted_ratios = Ok fs ->
  Sorted (fun a b => float_le a b = true) fs.
Proof.
  intros HF H. apply rmap_Forall2 in H.
  assert (Hrng : Forall (fun r => ratio_in_range r = true) sorted_ratios).
  { rewrite Forall_forall. exact sorted_ratio_in_range. }
  destruct F as [n | g]; cbn [is_positive] in HF.
  - apply Z.ltb_lt in HF.
    refine (Forall2_sorted _ Qle _ _ _ _ _ Hrng sorted_ratios_ascending H).
    intros a a' b b' Ha _ Haa Hb Hb'.
    destruct (ratio_in_range_spec a Ha) as ([Ha1 _] & _).
    eapply frequency_of_int_mono; eassumption.
  - refine (Forall2_sorted _ (keys_ascend sort_key) _ _ _ _ _ Hrng
                           sorted_ratios_keys_ascend H).
    intros a a' b b' Ha Ha' Haa Hb Hb'.
    eapply (frequency_of_float_mono g a a'); eassumption.
Qed.

(** ** The frequency list *)

Lemma rmap_length {A B : Type} (f : A -> result B) (l : list A) (l' : list B) :
  rmap f l = Ok l' -> length l' = length l.
Proof.
  intros H. apply rmap_Forall2 in H. symmetry. eapply Forall2_length, H.
Qed.

Lemma frequencies_in_range (F : pynum) (x : Q) :
  well_formed F -> value_of F = Some x -> Qabs x <= 2 ^ 1023 ->
  exists fs, rmap (frequency_of F) sorted_ratios = Ok fs /\
             Forall (fun y => exists q, y = FFin q /\ same_sign x q) fs.
Proof.
  intros Hwf Hv Hx. apply rmap_total. intros r Hr.
  destruct (frequency_in_range F x r Hwf Hv Hx (sorted_ratio_in_range r Hr))
    as (q & Hq & Hs).
  exists (FFin q). split; [exact Hq | now exists q].
Qed.

Lemma default_frequencies_run :
  rmap (frequency_of (PyInt 100)) sorted_ratios = Ok default_frequencies.
Proof. vm_compute. reflexivity. Qed.

(** An [int] fundamental of magnitude [2^1024] or more cannot be turned
    into a float: the very first frequency raises. *)
Lemma binary64_overflow (x : Q) : 2 ^ emax <= x -> binary64 x = FInf false.
Proof.
  intros H.
  assert (Hx : 0 < x) by (eapply Qlt_le_trans; [apply pow2_pos | exact H]).
  rewrite (binary64_pos x Hx).
  assert (Hr : 2 ^ emax <= round_pos x).
  { apply (Qle_trans _ (round_pos (2 ^ emax))).
    - by_evaluation.
    - apply round_pos_mono; [apply pow2_pos | exact H]. }
  apply Qle_bool_iff in Hr. now rewrite Hr.
Qed.

Lemma calculate_frequencies_overflow (n : Z) :
  (2 ^ 1024 <= Z.abs n)%Z ->
  PythagoreanSystem.calculate_frequencies (configured (PyInt n) sorted_ratios)
  = Raise OverflowError.
Proof.
  intros Hn. rewrite calculate_frequencies_run.
  assert (E : exists tl, sorted_ratios = 1 :: tl) by (eexists; reflexivity).
  destruct E as [tl ->]. cbn [rmap].
  rewrite frequency_of_int.
  assert (Hbig : 2 ^ emax <= Qabs (1 * inject_Z n)).
  { rewrite Qmult_1_l. change (Qabs (inject_Z n)) with (inject_Z (Z.abs n)).
    unfold emax. rewrite <- pow2_inject by lia. now rewrite <- Zle_Qle. }
  pose proof (pow2_pos emax) as Hp.
  destruct (Qlt_le_dec (1 * inject_Z n) 0) as [Hneg | Hpos].
  - rewrite (Qabs_neg (1 * inject_Z n)) in Hbig by lra.
    pose proof (binary64_overflow _ Hbig) as Ho.
    rewrite binary64_opp in Ho.
    destruct (binary64 (1 * inject_Z n)) as [q | s |]; try discriminate.
    reflexivity.
  - rewrite (Qabs_pos (1 * inject_Z n)) in Hbig by lra.
    now rewrite (binary64_overflow _ Hbig).
Qed.

Lemma frequencies_float_run (g : pyfloat) :
  exists fs, rmap (frequency_of (PyFloat g)) sorted_ratios = Ok fs.
Proof.
  destruct (rmap_total (frequency_of (PyFloat g)) (fun _ => True)
                       sorted_ratios) as (fs & Hfs & _); [| eauto].
  intros r Hr. apply sorted_ratio_in_range in Hr.
  destruct (ratio_in_range_spec r Hr) as (_ & k & Hk & _).
  exists (float_mul (FFin k) g). split; [| exact I].
  now apply frequency_of_float.
Qed.

(** C5, as the code has it.  [calculate_frequencies] does not return for
    every fundamental: it returns for every [float] one and for every one
    of magnitude up to [2^1023], and raises [OverflowError] for an [int] of
    magnitude [2^1024] or more.  A list it returns from the sorted ratios
    has 53 entries, entry [i] being the float of
    [sorted_ratios[i] * fundamental]: correctly rounded for an [int]
    fundamental, the rounded product of the ratio's float and the
    fundamental for a [float] one, within two roundings when finite; and
    the list ascends whenever the fundamental is positive. *)
Theorem calculate_frequencies_linear_monotone (F : pynum) :
  SistemaPitagorico.calcola_frequenze (configured F sorted_ratios)
  = PythagoreanSystem.calculate_frequencies (configured F sorted_ratios) /\
  (forall x, well_formed F -> value_of F = Some x -> Qabs x <= 2 ^ 1023 ->
     exists fs,
       PythagoreanSystem.calculate_frequencies (configured F sorted_ratios)
       = Ok (fs, configured F sorted_ratios)) /\
  (forall g, F = PyFloat g ->
     exists fs,
       PythagoreanSystem.calculate_frequencies (configured F sorted_ratios)
       = Ok (fs, configured F sorted_ratios)) /\
  (forall n, F = PyInt n -> (2 ^ 1024 <= Z.abs n)%Z ->
     PythagoreanSystem.calculate_frequencies (configured F sorted_ratios)
     = Raise OverflowError) /\
  (forall fs self',
     PythagoreanSystem.calculate_frequencies (configured F sorted_ratios)
     = Ok (fs, self') ->
     length fs = 53%nat /\
     (forall n i r, F = PyInt n -> nth_error sorted_ratios i = Some r ->
        exists q, nth_error fs i = Some (FFin q) /\
                  Qabs (q - r * inject_Z n)
                  <= 2 ^ (-53) * Qabs (r * inject_Z n)) /\
     (forall g i r, F = PyFloat g -> nth_error sorted_ratios i = Some r ->
        exists k, float_of_Fraction r = Ok (FFin k) /\
                  nth_error fs i = Some (float_mul (FFin k) g)) /\
     (forall g i r q, F = PyFloat (FFin g) ->
        nth_error sorted_ratios i = Some r ->
        nth_error fs i = Some (FFin q) ->
        Qabs (q - r * g) <= 2 ^ (-51) * Qabs (r * g) + 2 ^ (-1075)) /\
     (is_positive F = true -> Sorted (fun a b => float_le a b = true) fs)).
Proof.
  split; [reflexivity |]. split; [| split; [| split]].
  - intros x Hwf Hv Hx.
    destruct (frequencies_in_range F x Hwf Hv Hx) as (fs & Hfs & _).
    exists fs. now rewrite calculate_frequencies_run, Hfs.
  - intros g ->. destruct (frequencies_float_run g) as [fs Hfs].
    exists fs. now rewrite calculate_frequencies_run, Hfs.
  - intros n -> Hn. now apply calculate_frequencies_overflow.
  - intros fs self'. rewrite calculate_frequencies_run.
    destruct (rmap (frequency_of F) sorted_ratios) as [fs' |] eqn:E;
      cbn [rbind]; [| discriminate].
    intros H. injection H as -> _.
    pose proof E as HF. apply rmap_Forall2 in HF.
    split; [now rewrite (rmap_length _ _ _ E) |].
    split; [| split; [| split]].
    + intros n i r -> Hr.
      destruct (Forall2_nth _ _ _ HF i r Hr) as (y & Hy & Hfy).
      destruct (frequency_of_int_finite _ _ _ Hfy) as (q & -> & _).
      exists q. split; [exact Hy |].
      apply frequency_of_int_error; [| exact Hfy].
      apply nth_error_In, sorted_ratio_in_range, ratio_in_range_spec in Hr.
      now destruct Hr as [[H1 _] _].
    + intros g i r -> Hr.
      destruct (Forall2_nth _ _ _ HF i r Hr) as (y & Hy & Hfy).
      apply nth_error_In, sorted_ratio_in_range in Hr.
      destruct (ratio_in_range_spec r Hr) as (_ & k & Hk & _).
      exists k. split; [exact Hk |].
      rewrite (frequency_of_float _ _ _ Hk) in Hfy. congruence.
    + intros g i r q -> Hr Hq.
      destruct (Forall2_nth _ _ _ HF i r Hr) as (y & Hy & Hfy).
      assert (y = FFin q) by congruence. subst y.
      apply frequency_of_float_error; [| exact Hfy].
      now apply sorted_ratio_in_range, (nth_error_In _ i).
    + intros Hpos. now apply (frequencies_ascend F).
Qed.

Lemma calculate_frequencies_linear_monotone_witness :
  exists fs,
    PythagoreanSystem.calculate_frequencies
      (configured (PyInt 100) sorted_ratios)
    = Ok (fs, configured (PyInt 100) sorted_ratios).
Proof.
  apply (proj1 (proj2 (calculate_frequencies_linear_monotone (PyInt 100)))
               100).
  - exact I.
  - reflexivity.
  - by_evaluation.
Defined.

(** The claim as first stated fails at a positive [int] fundamental too
    large for a float, for which no frequency list is returned, and at the
    greatest float, for which the second frequency is an infinity. *)
Lemma calculate_frequencies_not_for_every_fundamental :
  is_positive (PyInt (2 ^ 1024)) = true /\
  PythagoreanSystem.calculate_frequencies
    (configured (PyInt (2 ^ 1024)) sorted_ratios)
  = Raise OverflowError /\
  is_positive (PyFloat (FFin max_float)) = true /\
  is_binary64 (FFin max_float) /\
  exists fs,
    PythagoreanSystem.calculate_frequencies
      (configured (PyFloat (FFin max_float)) sorted_ratios)
    = Ok (fs, configured (PyFloat (FFin max_float)) sorted_ratios) /\
    nth_error fs 1 = Some (FInf false).
Proof.
  split; [reflexivity |]. split.
  - apply calculate_frequencies_overflow. by_evaluation.
  - split; [vm_compute; reflexivity |]. split; [vm_compute; reflexivity |].
    rewrite calculate_frequencies_run.
    assert (R : exists fs,
               rmap (frequency_of (PyFloat (FFin max_float))) sorted_ratios
               = Ok fs /\ nth_error fs 1 = Some (FInf false)).
    { eexists. split; vm_compute; reflexivity. }
    destruct R as (fs & Hfs & H1). exists fs. rewrite Hfs.
    split; [reflexivity | exact H1].
Qed.

(** ** Constructed instances *)

Lemma construct_ratios (f o : pynum) (inst : instance) :
  PythagoreanSystem.construct f o = Ok inst ->
  attr_ratios inst = Some sorted_ratios.
Proof.
  rewrite construct_run.
  destruct (pynum_mul f o) as [F |]; cbn [rbind]; [| discriminate].
  destruct (rmap (frequency_of F) sorted_ratios) as [fs |]; cbn [rbind];
    [| discriminate].
  intros H. injection H as <-. reflexivity.
Qed.

Lemma frequencies_of_int (n : Z) (fs : list pyfloat) :
  rmap (frequency_of (PyInt n)) sorted_ratios = Ok fs ->
  Forall2 (fun r y => y = binary64 (r * inject_Z n)) sorted_ratios fs.
Proof.
  intros H. apply rmap_Forall2 in H.
  induction H as [| r y rs ys Hy _ IH]; constructor; [| exact IH].
  rewrite frequency_of_int in Hy. symmetry.
  now apply finite_or_overflow_inv.
Qed.

(** C6. The ratios do not depend on the configuration: the generators
    return the same list from any instance state, every instance either
    class constructs holds the same sorted ratios, and the two default
    systems differ only in the effective fundamental, 100 against 64, and
    in the frequencies scaled by it. *)
Theorem ratios_independent_of_configuration :
  (forall self,
      PythagoreanSystem.generate_ratios self = Ok (generated, self) /\
      SistemaPitagorico.genera_rapporti self = Ok (generated, self)) /\
  (forall f o inst,
      PythagoreanSystem.construct f o = Ok inst ->
      attr_ratios inst = Some sorted_ratios) /\
  (forall f o inst,
      SistemaPitagorico.construct f o = Ok inst ->
      attr_ratios inst = Some sorted_ratios) /\
  exists fs100 fs64,
    PythagoreanSystem.system
    = Ok {| attr_fundamental := Some (PyInt 100);
            attr_ratios := Some sorted_ratios;
            attr_frequencies := Some fs100 |} /\
    SistemaPitagorico.sistema
    = Ok {| attr_fundamental := Some (PyInt 64);
            attr_ratios := Some sorted_ratios;
            attr_frequencies := Some fs64 |} /\
    Forall2 (fun r y => y = binary64 (r * 100)) sorted_ratios fs100 /\
    Forall2 (fun r y => y = binary64 (r * 64)) sorted_ratios fs64.
Proof.
  split; [| split; [| split]].
  - intros self. split; [apply generate_ratios_generated |].
    rewrite genera_rapporti_generate_ratios. apply generate_ratios_generated.
  - exact construct_ratios.
  - rewrite construct_twin. exact construct_ratios.
  - destruct (frequencies_in_range (PyInt 100) 100 I eq_refl)
      as (fs100 & H100 & _); [by_evaluation |].
    destruct (frequencies_in_range (PyInt 64) 64 I eq_refl)
      as (fs64 & H64 & _); [by_evaluation |].
    exists fs100, fs64.
    split; [| split; [| split]].
    + unfold PythagoreanSystem.system. rewrite construct_run.
      change (pynum_mul PythagoreanSystem.default_fundamental
                        PythagoreanSystem.default_octave)
        with (Ok (PyInt 100)).
      cbn [rbind]. now rewrite H100.
    + unfold SistemaPitagorico.sistema. rewrite construct_twin, construct_run.
      change (pynum_mul SistemaPitagorico.default_fondamentale
                        SistemaPitagorico.default_ottava)
        with (Ok (PyInt 64)).
      cbn [rbind]. now rewrite H64.
    + exact (frequencies_of_int 100 fs100 H100).
    + exact (frequencies_of_int 64 fs64 H64).
Qed.

Lemma ratios_independent_of_configuration_witness :
  exists inst,
    PythagoreanSystem.construct (PyInt 440) (PyInt 2) = Ok inst /\
    attr_ratios inst = Some sorted_ratios.
Proof.
  destruct (frequencies_in_range (PyInt 880) 880 I eq_refl)
    as (fs & Hfs & _); [by_evaluation |].
  assert (H : PythagoreanSystem.construct (PyInt 440) (PyInt 2)
              = Ok {| attr_fundamental := Some (PyInt 880);
                      attr_ratios := Some sorted_ratios;
                      attr_frequencies := Some fs |}).
  { rewrite construct_run.
    change (pynum_mul (PyInt 440) (PyInt 2)) with (Ok (PyInt 880)).
    cbn [rbind]. now rewrite Hfs. }
  eexists. split; [exact H |].
  exact (proj1 (proj2 ratios_independent_of_configuration) _ _ _ H).
Defined.

Lemma Forall_forallb {A : Type} (p : A -> bool) (P : A -> Prop) (l : list A) :
  (forall a, p a = true -> P a) -> forallb p l = true -> Forall P l.
Proof.
  intros HP H. rewrite forallb_forall in H. apply Forall_forall.
  intros a Ha. apply HP, H, Ha.
Qed.

(** C7. The default [PythagoreanSystem()]: the effective fundamental is
    100; the sorted ratios start with 1/1, whose frequency is exactly 100.0;
    the last ratio, [3^41 / 2^64], is below 2 and no ratio of the list is
    above it, and its frequency, the greatest of the list, is below 200.0. *)
Theorem default_system_scenario :
  pynum_mul PythagoreanSystem.default_fundamental
            PythagoreanSystem.default_octave = Ok (PyInt 100) /\
  PythagoreanSystem.system
  = Ok {| attr_fundamental := Some (PyInt 100);
          attr_ratios := Some sorted_ratios;
          attr_frequencies := Some default_frequencies |} /\
  hd_error sorted_ratios = Some 1 /\
  hd_error default_frequencies = Some (FFin 100) /\
  exists r q,
    last sorted_ratios 0 = r /\
    r = (36472996377170786403 # 18446744073709551616) /\
    r < 2 /\
    Forall (fun r' => r' <= r) sorted_ratios /\
    last default_frequencies FNan = FFin q /\
    q < 200 /\
    Forall (fun y => float_le y (FFin q) = true) default_frequencies.
Proof.
  split; [reflexivity |]. split.
  - unfold PythagoreanSystem.system. rewrite construct_run.
    change (pynum_mul PythagoreanSystem.default_fundamental
                      PythagoreanSystem.default_octave)
      with (Ok (PyInt 100)).
    cbn [rbind]. now rewrite default_frequencies_run.
  - split; [reflexivity |]. split; [reflexivity |].
    exists (36472996377170786403 # 18446744073709551616),
           (6956671977457197 # 35184372088832).
    split; [reflexivity |]. split; [reflexivity |].
    split; [reflexivity |]. split.
    + apply (Forall_forallb
               (fun r' => Qle_bool r' (36472996377170786403 # 18446744073709551616))).
      * intros a Ha. now apply Qle_bool_iff.
      * vm_compute. reflexivity.
    + split; [reflexivity |]. split; [reflexivity |].
      apply (Forall_forallb
               (fun y => float_le y (FFin (6956671977457197 # 35184372088832)))).
      * intros a Ha. exact Ha.
      * vm_compute. reflexivity.
Qed.

(** C9, as the code has it.  When the effective fundamental, the product
    [fundamental * octave], is an [int] or a finite float of magnitude at
    most [2^1023], construction raises nothing and every one of the 53
    frequencies is the finite float of [ratio * fundamental]: positive for a
    positive fundamental, zero for zero, negative for a negative one. *)
Theorem construct_in_range (f o F : pynum) (x : Q) :
  pynum_mul f o = Ok F ->
  well_formed F -> value_of F = Some x -> Qabs x <= 2 ^ 1023 ->
  exists fs,
    PythagoreanSystem.construct f o
    = Ok {| attr_fundamental := Some F;
            attr_ratios := Some sorted_ratios;
            attr_frequencies := Some fs |} /\
    SistemaPitagorico.construct f o = PythagoreanSystem.construct f o /\
    length fs = 53%nat /\
    Forall2 (fun r y => frequency_of F r = Ok y) sorted_ratios fs /\
    Forall (fun y => exists q, y = FFin q /\ same_sign x q) fs.
Proof.
  intros Hmul Hwf Hv Hx.
  destruct (frequencies_in_range F x Hwf Hv Hx) as (fs & Hfs & Hsign).
  exists fs. split; [| split; [| split; [| split]]].
  - rewrite construct_run, Hmul. cbn [rbind]. now rewrite Hfs.
  - reflexivity.
  - now rewrite (rmap_length _ _ _ Hfs).
  - now apply rmap_Forall2.
  - exact Hsign.
Qed.

Lemma construct_in_range_witness :
  exists fs,
    PythagoreanSystem.construct (PyInt (-32)) (PyInt 2)
    = Ok {| attr_fundamental := Some (PyInt (-64));
            attr_ratios := Some sorted_ratios;
            attr_frequencies := Some fs |} /\
    Forall (fun y => exists q, y = FFin q /\ same_sign (-64) q) fs.
Proof.
  assert (Hx : Qabs (-64) <= 2 ^ 1023)
    by (by_evaluation).
  destruct (construct_in_range (PyInt (-32)) (PyInt 2) (PyInt (-64)) (-64)
                               eq_refl I eq_refl Hx)
    as (fs & H & _ & _ & _ & Hs).
  exists fs. split; assumption.
Defined.

(** An [int] fundamental too large for a float is a configuration the
    constructor does not survive. *)
Lemma construct_overflow :
  is_positive (PyInt (10 ^ 400)) = true /\
  PythagoreanSystem.construct (PyInt (10 ^ 400)) (PyInt 1)
  = Raise OverflowError.
Proof.
  split; [reflexivity |].
  rewrite construct_run.
  change (pynum_mul (PyInt (10 ^ 400)) (PyInt 1))
    with (Ok (PyInt (10 ^ 400 * 1))).
  cbn [rbind].
  assert (Hb : (2 ^ 1024 <= Z.abs (10 ^ 400 * 1))%Z)
    by (by_evaluation).
  pose proof (calculate_frequencies_overflow (10 ^ 400 * 1) Hb) as H.
  rewrite calculate_frequencies_run in H.
  destruct (rmap (frequency_of (PyInt (10 ^ 400 * 1))) sorted_ratios)
    as [fs |] eqn:E; cbn [rbind] in *.
  - discriminate.
  - injection H as ->. reflexivity.
Qed.

(** A finite positive [float] fundamental can still be too large: with the
    greatest binary64 number every frequency but the first overflows to an
    infinity, and nothing is raised. *)
Lemma float_fundamental_overflow :
  is_binary64 (FFin max_float) /\
  exists fs,
    PythagoreanSystem.construct (PyFloat (FFin max_float)) (PyInt 1)
    = Ok {| attr_fundamental := Some (PyFloat (FFin max_float));
            attr_ratios := Some sorted_ratios;
            attr_frequencies := Some fs |} /\
    In (FInf false) fs.
Proof.
  split; [vm_compute; reflexivity |].
  rewrite construct_run.
  assert (E : pynum_mul (PyFloat (FFin max_float)) (PyInt 1)
              = Ok (PyFloat (FFin max_float))) by (vm_compute; reflexivity).
  rewrite E. cbn [rbind].
  assert (R : exists fs,
             rmap (frequency_of (PyFloat (FFin max_float))) sorted_ratios = Ok fs
             /\ existsb (fun y => match y with
                                  | FInf false => true
                                  | _ => false
                                  end) fs = true).
  { eexists. split; vm_compute; reflexivity. }
  destruct R as (fs & Hfs & Hex). exists fs. rewrite Hfs.
  split; [reflexivity |].
  apply existsb_exists in Hex. destruct Hex as (y & Hy & Hinf).
  destruct y as [q | [] |]; try discriminate Hinf. exact Hy.
Qed.

(** * More on the generated and the sorted scale *)

(** ** A closed form for the generated ratios *)

Lemma pow3_pos (k : Z) : (0 <= k)%Z -> (0 < 3 ^ k)%Z.
Proof. intros H. apply Z.pow_pos_nonneg; lia. Qed.

(** X1. The entry generated at position [k] is [3^k] over the greatest power
    of 2 that does not exceed [3^k]. *)
Theorem generate_ratios_closed_form (self : instance) :
  PythagoreanSystem.generate_ratios self = Ok (generated, self) /\
  forall k r,
    nth_error generated k = Some r ->
    r = (3 ^ Z.of_nat k)%Z # Z.to_pos (2 ^ Z.log2 (3 ^ Z.of_nat k)) /\
    (2 ^ Z.log2 (3 ^ Z.of_nat k) <= 3 ^ Z.of_nat k
     < 2 * 2 ^ Z.log2 (3 ^ Z.of_nat k))%Z.
Proof.
  split; [apply generate_ratios_generated |].
  intros k r H.
  destruct (generated_pythagorean _ _ H) as [Hn (m & Hm & Hd)].
  pose proof generated_in_octave as Hall. rewrite Forall_forall in Hall.
  destruct (Hall r (nth_error_In _ _ H)) as [Hlo Hhi].
  pose proof (pow3_pos (Z.of_nat k) (Nat2Z.is_nonneg k)) as Hpos.
  destruct r as [n d]. unfold numerator, denominator in *. simpl in Hn, Hd.
  unfold Qle, Qlt in Hlo, Hhi. simpl in Hlo, Hhi.
  assert (Hlog : Z.log2 (3 ^ Z.of_nat k) = m).
  { apply Z.log2_unique; [exact Hm |]. rewrite Z.pow_succ_r by exact Hm. lia. }
  rewrite Hlog. split.
  - rewrite <- Hd, <- Hn. reflexivity.
  - rewrite <- Hd, <- Hn. lia.
Qed.

(** ** Where the sort puts each ratio *)

Lemma neighbours_forallb {A : Type} (p : A -> A -> bool) (l : list A) :
  forallb (fun ab => p (fst ab) (snd ab)) (combine l (tl l)) = true ->
  forall i a b, nth_error l i = Some a -> nth_error l (S i) = Some b ->
                p a b = true.
Proof.
  induction l as [| x l IH]; intros H i a b Ha Hb.
  - destruct i; discriminate Ha.
  - destruct l as [| y l]; [destruct i as [| [|]]; discriminate Hb |].
    cbn [tl combine forallb fst snd] in H. apply andb_true_iff in H.
    destruct H as [Hxy Hrest].
    destruct i as [| i]; cbn [nth_error] in Ha, Hb.
    + injection Ha as <-. injection Hb as <-. exact Hxy.
    + apply (IH Hrest i); assumption.
Qed.

Lemma sorted_ratios_steps :
  forallb (fun ab => is_step (fst ab) (snd ab))
          (combine sorted_ratios (tl sorted_ratios)) = true.
Proof. vm_compute. reflexivity. Qed.

(** X2. The sort is a rotation of the generation order: position [i] of
    the sorted list holds the ratio generated at step [12 * i mod 53]. *)
Theorem sort_ratios_rotation (f : option pynum) (fr : option (list pyfloat)) :
  PythagoreanSystem.sort_ratios
    {| attr_fundamental := f; attr_ratios := Some generated;
       attr_frequencies := fr |}
  = Ok (tt, {| attr_fundamental := f; attr_ratios := Some sorted_ratios;
               attr_frequencies := fr |}) /\
  forall i, (i < 53)%nat ->
            nth_error sorted_ratios i = nth_error generated ((12 * i) mod 53).
Proof.
  split; [apply sort_ratios_run |].
  intros i Hi.
  assert (E : forallb (fun i => match nth_error sorted_ratios i,
                                      nth_error generated ((12 * i) mod 53) with
                                | Some a, Some b =>
                                    Z.eqb (Qnum a) (Qnum b)
                                    && Pos.eqb (Qden a) (Qden b)
                                | _, _ => false
                                end) (seq 0 53) = true)
    by (vm_compute; reflexivity).
  rewrite forallb_forall in E. specialize (E i).
  assert (Hin : In i (seq 0 53)) by (apply in_seq; lia).
  specialize (E Hin). clear Hin.
  destruct (nth_error sorted_ratios i) as [[na da] |];
    destruct (nth_error generated ((12 * i) mod 53)) as [[nb db] |];
    try discriminate E.
  simpl in E. apply andb_true_iff in E. destruct E as [E1 E2].
  apply Z.eqb_eq in E1. apply Pos.eqb_eq in E2. now subst.
Qed.

(** X3. The sorted scale has two step sizes only: each ratio is its left
    neighbour times the Pythagorean comma [3^12 / 2^19] (41 times) or times
    [2^65 / 3^41] (11 times), and one more small step from the last ratio
    closes the octave. *)
Theorem sorted_scale_steps (f : option pynum) (fr : option (list pyfloat)) :
  PythagoreanSystem.sort_ratios
    {| attr_fundamental := f; attr_ratios := Some generated;
       attr_frequencies := fr |}
  = Ok (tt, {| attr_fundamental := f; attr_ratios := Some sorted_ratios;
               attr_frequencies := fr |}) /\
  (forall i a b,
      nth_error sorted_ratios i = Some a ->
      nth_error sorted_ratios (S i) = Some b ->
      b == a * pythagorean_comma \/ b == a * small_step) /\
  last sorted_ratios 0 * small_step == 2 /\
  length (filter (fun ab => Qeq_bool (snd ab) (fst ab * pythagorean_comma))
                 (combine sorted_ratios (tl sorted_ratios))) = 41%nat /\
  length (filter (fun ab => Qeq_bool (snd ab) (fst ab * small_step))
                 (combine sorted_ratios (tl sorted_ratios))) = 11%nat.
Proof.
  split; [apply sort_ratios_run |]. split.
  - intros i a b Ha Hb.
    pose proof (neighbours_forallb is_step _ sorted_ratios_steps i a b Ha Hb) as H.
    unfold is_step in H. apply orb_true_iff in H.
    destruct H as [H | H]; apply Qeq_bool_iff in H; [now left | now right].
  - split; [apply Qeq_bool_iff; vm_compute; reflexivity |].
    split; vm_compute; reflexivity.
Qed.

(** * The methods on any instance *)

(** ** The sort key *)

Lemma sort_key_binary64 (r : Fraction) :
  sort_key r = finite_or_overflow (binary64 r).
Proof. exact (float_of_Fraction_binary64 r). Qed.

Lemma binary64_finite (x : Q) :
  Qabs x <= max_float -> exists q, binary64 x = FFin q.
Proof.
  assert (Hpos : forall x, 0 < x -> x <= max_float ->
                           exists q, binary64 x = FFin q).
  { clear x. intros x Hx Hle. rewrite (binary64_pos x Hx).
    assert (Hr : round_pos x <= max_float)
      by (rewrite <- max_float_fixed; now apply round_pos_mono).
    destruct (Qle_bool (2 ^ emax) (round_pos x)) eqn:E; [| eauto].
    apply Qle_bool_iff in E. pose proof max_float_finite. exfalso. lra. }
  intros H. destruct (Q_dec x 0) as [[Hlt | Hgt] | Hz].
  - rewrite (Qabs_neg x) in H by lra.
    destruct (Hpos (- x)) as [q Hq]; [lra | exact H |].
    assert (E : x == - - x) by ring.
    rewrite (binary64_Qeq _ _ E), binary64_opp, Hq. cbn [float_neg]. eauto.
  - rewrite (Qabs_pos x) in H by lra. now apply Hpos.
  - exists 0. now apply binary64_zero.
Qed.

Lemma binary64_infinite (x : Q) :
  2 ^ emax <= Qabs x -> exists s, binary64 x = FInf s.
Proof.
  intros H. pose proof (pow2_pos emax) as Hp.
  destruct (Qlt_le_dec x 0) as [Hneg | Hpos].
  - rewrite (Qabs_neg x) in H by lra.
    pose proof (binary64_overflow _ H) as Ho. rewrite binary64_opp in Ho.
    destruct (binary64 x) as [q | s |]; try discriminate Ho. eauto.
  - rewrite (Qabs_pos x) in H by lra. exists false. now apply binary64_overflow.
Qed.

Lemma sort_key_ok (r : Fraction) :
  Qabs r <= max_float -> exists q, sort_key r = Ok (FFin q).
Proof.
  intros H. destruct (binary64_finite r H) as [q Hq].
  exists q. now rewrite sort_key_binary64, Hq.
Qed.

Lemma sort_key_overflow (r : Fraction) :
  2 ^ emax <= Qabs r -> sort_key r = Raise OverflowError.
Proof.
  intros H. destruct (binary64_infinite r H) as [s Hs].
  now rewrite sort_key_binary64, Hs.
Qed.

Lemma sort_key_finite (r : Fraction) (k : pyfloat) :
  sort_key r = Ok k -> exists q, k = FFin q.
Proof.
  rewrite sort_key_binary64. intros H.
  destruct k as [q | s |].
  - eauto.
  - exfalso. exact (finite_or_overflow_finite _ _ H).
  - apply finite_or_overflow_inv in H. exfalso. exact (binary64_not_nan _ H).
Qed.

Lemma sort_key_ok_or_overflow (r : Fraction) : ok_or_overflow (sort_key r).
Proof.
  rewrite sort_key_binary64. unfold ok_or_overflow.
  destruct (binary64 r); cbn [finite_or_overflow]; eauto.
Qed.

(** ** Comprehensions and exceptions *)

Lemma rmap_ok_or_overflow {A B : Type} (f : A -> result B) (l : list A) :
  (forall a, In a l -> ok_or_overflow (f a)) -> ok_or_overflow (rmap f l).
Proof.
  induction l as [| a l IH]; intros H; cbn [rmap].
  - left. eauto.
  - destruct (H a (or_introl eq_refl)) as [[b Hb] | Hb]; rewrite Hb; cbn [rbind];
      [| now right].
    destruct IH as [[bs Hbs] | Hbs]; [intros; apply H; now right | |];
      rewrite Hbs; cbn [rbind]; [left; eauto | now right].
Qed.

Lemma rmap_raises {A B : Type} (f : A -> result B) (l : list A) (a : A) :
  (forall a', In a' l -> ok_or_overflow (f a')) ->
  In a l -> f a = Raise OverflowError -> rmap f l = Raise OverflowError.
Proof.
  intros Hall Hin Ha.
  destruct (rmap_ok_or_overflow f l Hall) as [[bs Hbs] | H]; [| exact H].
  exfalso. apply rmap_Forall2 in Hbs.
  destruct (In_nth_error _ _ Hin) as [i Hi].
  destruct (Forall2_nth _ _ _ Hbs i a Hi) as (b & _ & Hb). congruence.
Qed.

(** ** Sorting any list of ratios *)

Lemma list_sort_run (l : list Fraction) :
  Forall (fun r => Qabs r <= max_float) l ->
  exists l', list_sort sort_key l = Ok l'.
Proof.
  intros H. unfold list_sort.
  destruct (rmap_total (fun a => rbind (sort_key a) (fun k => Ok (k, a)))
                       (fun _ => True) l) as (keyed & Hk & _).
  - intros a Ha. rewrite Forall_forall in H.
    destruct (sort_key_ok a (H a Ha)) as [q Hq].
    exists (FFin q, a). now rewrite Hq.
  - rewrite Hk. cbn [rbind]. eauto.
Qed.

Lemma list_sort_overflow (l : list Fraction) (r : Fraction) :
  In r l -> 2 ^ emax <= Qabs r -> list_sort sort_key l = Raise OverflowError.
Proof.
  intros Hin Hr. unfold list_sort.
  rewrite (rmap_raises (fun a => rbind (sort_key a) (fun k => Ok (k, a))) l r).
  - reflexivity.
  - intros a _. destruct (sort_key_ok_or_overflow a) as [[k Hk] | Hk];
      rewrite Hk; cbn [rbind]; [left; eauto | now right].
  - exact Hin.
  - now rewrite (sort_key_overflow r Hr).
Qed.

Lemma sort_ratios_unfold (f : option pynum) (rs : list Fraction)
      (fr : option (list pyfloat)) :
  PythagoreanSystem.sort_ratios
    {| attr_fundamental := f; attr_ratios := Some rs; attr_frequencies := fr |}
  = rbind (list_sort sort_key rs) (fun rs' =>
      Ok (tt, {| attr_fundamental := f; attr_ratios := Some rs';
                 attr_frequencies := fr |})).
Proof.
  unfold PythagoreanSystem.sort_ratios, bind, get_attr, lift, set_ratios.
  cbn [attr_ratios attr_fundamental attr_frequencies].
  change (fun ratio : Fraction =>
            int_truediv (numerator ratio) (denominator ratio)) with sort_key.
  destruct (list_sort sort_key rs); reflexivity.
Qed.

(** ** Sorting a sorted list *)

Section SortedAgain.
Context {A : Type}.
Implicit Types (x y z : pyfloat * A) (l : list (pyfloat * A)).

Lemma key_le_trans x y z :
  finite_key x -> finite_key y -> finite_key z ->
  key_le x y -> key_le y z -> key_le x z.
Proof.
  unfold key_le. intros [p Hp] [q Hq] [r Hr]. rewrite Hp, Hq, Hr.
  cbn [float_lt]. rewrite !negb_false_iff, !Qle_bool_iff.
  intros H1 H2. eapply Qle_trans; eassumption.
Qed.

Lemma Sorted_strongly l :
  Forall finite_key l -> Sorted key_le l -> StronglySorted key_le l.
Proof.
  intros Hf Hs. induction Hs as [| x l Hs IH Hhd]; [constructor |].
  inversion Hf as [| ? ? Hx Hl]; subst.
  specialize (IH Hl). constructor; [exact IH |].
  destruct Hhd as [| y l Hxy]; [constructor |].
  inversion Hl as [| ? ? Hy Hl']; subst.
  inversion IH as [| ? ? _ Hall]; subst.
  constructor; [exact Hxy |].
  rewrite Forall_forall in *. intros z Hz.
  apply (key_le_trans x y z); auto.
Qed.

Lemma StronglySorted_before l1 x l2 :
  StronglySorted key_le (l1 ++ x :: l2) -> Forall (fun y => key_le y x) l1.
Proof.
  induction l1 as [| y l1 IH]; intros H; [constructor |].
  cbn [app] in H. inversion H as [| ? ? Hs Hall]; subst.
  constructor; [| now apply IH].
  rewrite Forall_forall in Hall. apply Hall, in_elt.
Qed.

Lemma insert_keyed_last x l :
  Forall (fun y => key_le y x) l -> insert_keyed x l = l ++ [x].
Proof.
  induction 1 as [| y l Hy _ IH]; [reflexivity |].
  cbn [insert_keyed app]. unfold key_le in Hy. now rewrite Hy, IH.
Qed.

Lemma sort_keyed_sorted_id l :
  StronglySorted key_le l -> sort_keyed l = l.
Proof.
  unfold sort_keyed.
  enough (H : forall placed,
             StronglySorted key_le (placed ++ l) ->
             fold_left (fun placed x => insert_keyed x placed) l placed
             = placed ++ l) by exact (H []).
  induction l as [| x l IH]; intros placed Hs; cbn [fold_left].
  - now rewrite app_nil_r.
  - rewrite (insert_keyed_last x placed (StronglySorted_before _ _ _ Hs)).
    rewrite IH; rewrite <- app_assoc; [reflexivity | exact Hs].
Qed.

Variable key : A -> result pyfloat.

Lemma rmap_keyed_back l :
  Forall (fun p => key (snd p) = Ok (fst p)) l ->
  rmap (fun a => rbind (key a) (fun k => Ok (k, a))) (map snd l) = Ok l.
Proof.
  induction 1 as [| [k a] l Hp _ IH]; [reflexivity |].
  cbn [map snd fst rmap] in *. rewrite Hp. cbn [rbind]. now rewrite IH.
Qed.
End SortedAgain.

Lemma list_sort_idempotent (l l' : list Fraction) :
  list_sort sort_key l = Ok l' -> list_sort sort_key l' = Ok l'.
Proof.
  unfold list_sort. intros H.
  destruct (rmap _ l) as [keyed |] eqn:E; cbn [rbind] in H; [| discriminate H].
  injection H as <-. destruct (rmap_keyed _ _ _ E) as [_ Hf].
  assert (Hf' : Forall (fun p => sort_key (snd p) = Ok (fst p))
                       (sort_keyed keyed)).
  { rewrite Forall_forall in *. intros p Hp. apply Hf.
    eapply Permutation_in; [symmetry; apply sort_keyed_perm | exact Hp]. }
  rewrite (rmap_keyed_back sort_key _ Hf'). cbn [rbind].
  rewrite sort_keyed_sorted_id; [reflexivity |].
  apply Sorted_strongly; [| apply sort_keyed_sorted].
  rewrite Forall_forall in *. intros p Hp.
  exact (sort_key_finite _ _ (Hf' p Hp)).
Qed.

Lemma keys_ascend_floats (a b : Fraction) :
  keys_ascend sort_key a b ->
  exists ka kb, binary64 a = FFin ka /\ binary64 b = FFin kb /\ ka <= kb.
Proof.
  intros (ka & kb & Ha & Hb & Hlt).
  destruct (sort_key_finite _ _ Ha) as [p ->].
  destruct (sort_key_finite _ _ Hb) as [q ->].
  rewrite sort_key_binary64 in Ha, Hb.
  apply finite_or_overflow_inv in Ha, Hb.
  cbn [float_lt] in Hlt. apply negb_false_iff, Qle_bool_iff in Hlt.
  exists p, q. repeat split; assumption.
Qed.

(** X4. On any list of ratios, a [sort_ratios] that returns has replaced
    the list by a permutation of it, of the same length, in which the float
    of each ratio is at most the float of its right neighbour; the other
    attributes are untouched. *)
Theorem sort_ratios_any_list (f : option pynum) (rs : list Fraction)
        (fr : option (list pyfloat)) (self' : instance) :
  PythagoreanSystem.sort_ratios
    {| attr_fundamental := f; attr_ratios := Some rs; attr_frequencies := fr |}
  = Ok (tt, self') ->
  exists rs',
    self' = {| attr_fundamental := f; attr_ratios := Some rs';
               attr_frequencies := fr |} /\
    Permutation rs rs' /\
    length rs' = length rs /\
    forall i a b,
      nth_error rs' i = Some a -> nth_error rs' (S i) = Some b ->
      exists ka kb, binary64 a = FFin ka /\ binary64 b = FFin kb /\ ka <= kb.
Proof.
  rewrite sort_ratios_unfold.
  destruct (list_sort sort_key rs) as [rs' |] eqn:E; cbn [rbind];
    [| discriminate].
  intros H. injection H as <-. exists rs'.
  pose proof (list_sort_perm _ _ _ E) as Hp.
  split; [reflexivity |]. split; [exact Hp |].
  split; [symmetry; now apply Permutation_length |].
  intros i a b Ha Hb. apply keys_ascend_floats.
  exact (Sorted_neighbours _ _ (list_sort_sorted _ _ _ E) i a b Ha Hb).
Qed.

Lemma sort_ratios_any_list_witness :
  exists rs',
    Permutation [3 # 2; 1; 5 # 4] rs' /\ length rs' = 3%nat.
Proof.
  assert (H : PythagoreanSystem.sort_ratios
                {| attr_fundamental := None;
                   attr_ratios := Some [3 # 2; 1; 5 # 4];
                   attr_frequencies := None |}
              = Ok (tt, {| attr_fundamental := None;
                           attr_ratios := Some [1; 5 # 4; 3 # 2];
                           attr_frequencies := None |}))
    by (vm_compute; reflexivity).
  destruct (sort_ratios_any_list _ _ _ _ H) as (rs' & _ & Hp & Hl & _).
  exists rs'. split; assumption.
Defined.

(** X5. [sort_ratios] raises [AttributeError] when the instance has no
    ratios yet; it returns when every ratio fits the float range, and raises
    [OverflowError], from the key function, as soon as one ratio of the list
    has magnitude [2^1024] or more. *)
Theorem sort_ratios_errors (f : option pynum) (fr : option (list pyfloat)) :
  PythagoreanSystem.sort_ratios
    {| attr_fundamental := f; attr_ratios := None; attr_frequencies := fr |}
  = Raise AttributeError /\
  (forall rs,
      Forall (fun r => Qabs r <= max_float) rs ->
      exists rs',
        PythagoreanSystem.sort_ratios
          {| attr_fundamental := f; attr_ratios := Some rs;
             attr_frequencies := fr |}
        = Ok (tt, {| attr_fundamental := f; attr_ratios := Some rs';
                     attr_frequencies := fr |})) /\
  (forall rs r,
      In r rs -> 2 ^ 1024 <= Qabs r ->
      PythagoreanSystem.sort_ratios
        {| attr_fundamental := f; attr_ratios := Some rs;
           attr_frequencies := fr |}
      = Raise OverflowError).
Proof.
  split; [reflexivity |]. split.
  - intros rs H. destruct (list_sort_run rs H) as [rs' Hrs'].
    exists rs'. now rewrite sort_ratios_unfold, Hrs'.
  - intros rs r Hin Hr.
    now rewrite sort_ratios_unfold, (list_sort_overflow rs r Hin Hr).
Qed.

Lemma sort_ratios_errors_witness :
  PythagoreanSystem.sort_ratios
    {| attr_fundamental := None;
       attr_ratios := Some [1; inject_Z (2 ^ 1024); 3 # 2];
       attr_frequencies := None |}
  = Raise OverflowError.
Proof.
  apply (proj2 (proj2 (sort_ratios_errors None None))
               [1; inject_Z (2 ^ 1024); 3 # 2] (inject_Z (2 ^ 1024))).
  - right. left. reflexivity.
  - by_evaluation.
Defined.

(** X6. [sort_ratios] is idempotent: run again on the instance it left, it
    returns and changes nothing. *)
Theorem sort_ratios_idempotent (self self' : instance) :
  PythagoreanSystem.sort_ratios self = Ok (tt, self') ->
  PythagoreanSystem.sort_ratios self' = Ok (tt, self').
Proof.
  destruct self as [f [rs |] fr]; [| discriminate].
  rewrite sort_ratios_unfold.
  destruct (list_sort sort_key rs) as [rs' |] eqn:E; cbn [rbind];
    [| discriminate].
  intros H. injection H as <-.
  now rewrite sort_ratios_unfold, (list_sort_idempotent _ _ E).
Qed.

Lemma sort_ratios_idempotent_witness :
  PythagoreanSystem.sort_ratios
    {| attr_fundamental := None; attr_ratios := Some [1; 5 # 4; 3 # 2];
       attr_frequencies := None |}
  = Ok (tt, {| attr_fundamental := None; attr_ratios := Some [1; 5 # 4; 3 # 2];
               attr_frequencies := None |}).
Proof.
  apply (sort_ratios_idempotent
           {| attr_fundamental := None; attr_ratios := Some [3 # 2; 1; 5 # 4];
              attr_frequencies := None |}).
  vm_compute. reflexivity.
Defined.

(** ** The sort is stable *)

Section Stability.
Context {A : Type}.
Implicit Types (x y z : pyfloat * A) (l : list (pyfloat * A)).

Lemma filter_nothing (p : pyfloat * A -> bool) l :
  Forall (fun z => p z = false) l -> filter p l = [].
Proof.
  induction 1 as [| z l Hz _ IH]; [reflexivity |].
  cbn [filter]. now rewrite Hz.
Qed.

(** Behind an entry that is above [x], no entry has the key of [x]. *)
Lemma above_has_other_key (q : Q) x y z :
  finite_key z ->
  entry_has_key q x = true -> float_lt (fst x) (fst y) = true ->
  finite_key y -> key_le y z -> entry_has_key q z = false.
Proof.
  unfold entry_has_key, key_le. intros [kz Hz] Hx Hlt [ky Hy] Hyz.
  rewrite Hz, Hy in *.
  destruct (fst x) as [kx | |]; try discriminate Hx.
  cbn [float_lt] in Hlt, Hyz.
  apply Qeq_bool_iff in Hx.
  apply negb_true_iff in Hlt. apply negb_false_iff, Qle_bool_iff in Hyz.
  assert (Hxy : kx < ky).
  { apply Qnot_le_lt. intros Hle. apply Qle_bool_iff in Hle. congruence. }
  destruct (Qeq_bool kz q) eqn:E; [| reflexivity].
  apply Qeq_bool_iff in E. exfalso. lra.
Qed.

Lemma insert_keyed_filter (q : Q) x l :
  Forall finite_key l -> StronglySorted key_le l ->
  filter (entry_has_key q) (insert_keyed x l)
  = filter (entry_has_key q) l ++ filter (entry_has_key q) [x].
Proof.
  intros Hf Hs. induction Hs as [| y l Hs IH Hall]; [reflexivity |].
  inversion Hf as [| ? ? Hy Hl]; subst.
  cbn [insert_keyed]. destruct (float_lt (fst x) (fst y)) eqn:Hlt.
  - destruct (entry_has_key q x) eqn:Hx.
    + assert (Hnone : filter (entry_has_key q) (y :: l) = []).
      { apply filter_nothing. constructor.
        - apply (above_has_other_key q x y y Hy Hx Hlt Hy).
          unfold key_le. destruct Hy as [ky Hy]. rewrite Hy. cbn [float_lt].
          apply negb_false_iff, Qle_bool_iff, Qle_refl.
        - rewrite Forall_forall in *. intros z Hz.
          exact (above_has_other_key q x y z (Hl z Hz) Hx Hlt Hy (Hall z Hz)). }
      cbn [filter] in *. rewrite Hx, Hnone. reflexivity.
    + cbn [filter]. rewrite Hx. now rewrite app_nil_r.
  - cbn [filter]. rewrite (IH Hl).
    destruct (entry_has_key q y); reflexivity.
Qed.

Lemma insert_keyed_finite x l :
  finite_key x -> Forall finite_key l -> Forall finite_key (insert_keyed x l).
Proof.
  intros Hx Hl. rewrite Forall_forall in *. intros z Hz.
  apply (Permutation_in _ (Permutation_sym (insert_keyed_perm x l))) in Hz.
  destruct Hz as [<- | Hz]; auto.
Qed.

Lemma sort_keyed_stable (q : Q) l :
  Forall finite_key l ->
  filter (entry_has_key q) (sort_keyed l) = filter (entry_has_key q) l.
Proof.
  unfold sort_keyed.
  enough (H : forall placed,
             Forall finite_key placed -> Sorted key_le placed ->
             Forall finite_key l ->
             filter (entry_has_key q)
                    (fold_left (fun placed x => insert_keyed x placed) l placed)
             = filter (entry_has_key q) placed ++ filter (entry_has_key q) l)
    by (intros Hl; apply (H [] (Forall_nil _) (Sorted_nil _) Hl)).
  induction l as [| x l IH]; intros placed Hp Hs Hl; cbn [fold_left].
  - now rewrite app_nil_r.
  - inversion Hl as [| ? ? Hx Hl']; subst.
    rewrite IH.
    + rewrite (insert_keyed_filter q x placed Hp (Sorted_strongly _ Hp Hs)).
      rewrite <- app_assoc. f_equal.
      cbn [filter]. destruct (entry_has_key q x); reflexivity.
    + now apply insert_keyed_finite.
    + now apply insert_keyed_sorted.
    + exact Hl'.
Qed.
End Stability.

Lemma has_key_entries (q : Q) (keyed : list (pyfloat * Fraction)) :
  Forall (fun p => sort_key (snd p) = Ok (fst p)) keyed ->
  filter (has_key q) (map snd keyed)
  = map snd (filter (entry_has_key q) keyed).
Proof.
  induction 1 as [| p keyed Hp _ IH]; [reflexivity |].
  cbn [map filter]. unfold has_key at 1. rewrite Hp.
  fold (entry_has_key q p). rewrite IH.
  destruct (entry_has_key q p); reflexivity.
Qed.

Lemma list_sort_stable (q : Q) (l l' : list Fraction) :
  list_sort sort_key l = Ok l' ->
  filter (has_key q) l' = filter (has_key q) l.
Proof.
  unfold list_sort. intros H.
  destruct (rmap _ l) as [keyed |] eqn:E; cbn [rbind] in H; [| discriminate H].
  injection H as <-. destruct (rmap_keyed _ _ _ E) as [Hm Hf].
  assert (Hf' : Forall (fun p => sort_key (snd p) = Ok (fst p))
                       (sort_keyed keyed)).
  { rewrite Forall_forall in *. intros p Hp. apply Hf.
    eapply Permutation_in; [symmetry; apply sort_keyed_perm | exact Hp]. }
  assert (Hfin : Forall finite_key keyed).
  { rewrite Forall_forall in *. intros p Hp.
    exact (sort_key_finite _ _ (Hf p Hp)). }
  rewrite <- Hm.
  rewrite (has_key_entries q _ Hf'), (has_key_entries q _ Hf).
  now rewrite (sort_keyed_stable q keyed Hfin).
Qed.

(** X7. The sort sees the float key only and is stable: on any list of
    ratios, the ratios with one and the same float key come out of
    [sort_ratios] in the order they went in, whatever their exact order. *)
Theorem sort_ratios_keeps_ties (f : option pynum) (rs : list Fraction)
        (fr : option (list pyfloat)) (self' : instance) (q : Q) :
  PythagoreanSystem.sort_ratios
    {| attr_fundamental := f; attr_ratios := Some rs; attr_frequencies := fr |}
  = Ok (tt, self') ->
  exists rs',
    self' = {| attr_fundamental := f; attr_ratios := Some rs';
               attr_frequencies := fr |} /\
    filter (has_key q) rs' = filter (has_key q) rs.
Proof.
  rewrite sort_ratios_unfold.
  destruct (list_sort sort_key rs) as [rs' |] eqn:E; cbn [rbind];
    [| discriminate].
  intros H. injection H as <-. exists rs'.
  split; [reflexivity | exact (list_sort_stable q _ _ E)].
Qed.

Lemma sort_ratios_keeps_ties_witness :
  1 < (1152921504606846977 # 1152921504606846976) /\
  exists rs',
    PythagoreanSystem.sort_ratios
      {| attr_fundamental := None;
         attr_ratios :=
           Some [3 # 2; 1152921504606846977 # 1152921504606846976; 5 # 4; 1];
         attr_frequencies := None |}
    = Ok (tt, {| attr_fundamental := None; attr_ratios := Some rs';
                 attr_frequencies := None |}) /\
    filter (has_key 1) rs'
    = [1152921504606846977 # 1152921504606846976; 1].
Proof.
  split; [reflexivity |].
  assert (H : PythagoreanSystem.sort_ratios
                {| attr_fundamental := None;
                   attr_ratios :=
                     Some [3 # 2; 1152921504606846977 # 1152921504606846976;
                           5 # 4; 1];
                   attr_frequencies := None |}
              = Ok (tt, {| attr_fundamental := None;
                           attr_ratios :=
                             Some [1152921504606846977 # 1152921504606846976;
                                   1; 5 # 4; 3 # 2];
                           attr_frequencies := None |}))
    by (vm_compute; reflexivity).
  destruct (sort_ratios_keeps_ties _ _ _ _ 1 H) as (rs' & Hself & Hkeep).
  exists rs'. split; [now rewrite H, Hself |].
  rewrite Hkeep. vm_compute. reflexivity.
Defined.

(** ** The constructor on any pair of numbers *)

Lemma float_of_int_ok_or_overflow (n : Z) : ok_or_overflow (float_of_int n).
Proof.
  unfold float_of_int, ok_or_overflow.
  destruct (binary64 (inject_Z n)); cbn [finite_or_overflow]; eauto.
Qed.

Lemma pynum_mul_ok_or_overflow (a b : pynum) : ok_or_overflow (pynum_mul a b).
Proof.
  destruct a as [m | f], b as [n | g]; cbn [pynum_mul];
    try (left; eauto; fail).
  - destruct (float_of_int_ok_or_overflow m) as [[x Hx] | Hx]; rewrite Hx;
      cbn [rbind]; [left; eauto | now right].
  - destruct (float_of_int_ok_or_overflow n) as [[x Hx] | Hx]; rewrite Hx;
      cbn [rbind]; [left; eauto | now right].
Qed.

Lemma frequency_of_ok_or_overflow (F : pynum) (r : Fraction) :
  ok_or_overflow (frequency_of F r).
Proof.
  destruct F as [n | g].
  - rewrite frequency_of_int. unfold ok_or_overflow.
    destruct (binary64 (r * inject_Z n)); cbn [finite_or_overflow]; eauto.
  - unfold frequency_of, Fraction_mul_num.
    rewrite float_of_Fraction_binary64. unfold ok_or_overflow.
    destruct (binary64 r); cbn [finite_or_overflow rbind to_float]; eauto.
Qed.

(** X8. The constructor either returns an instance with the three
    attributes set, 53 ratios and 53 frequencies, or raises [OverflowError];
    it raises nothing else. *)
Theorem construct_raises_only_overflow (f o : pynum) :
  (exists F fs,
      pynum_mul f o = Ok F /\
      PythagoreanSystem.construct f o
      = Ok {| attr_fundamental := Some F;
              attr_ratios := Some sorted_ratios;
              attr_frequencies := Some fs |} /\
      length fs = 53%nat) \/
  PythagoreanSystem.construct f o = Raise OverflowError.
Proof.
  rewrite construct_run.
  destruct (pynum_mul_ok_or_overflow f o) as [[F HF] | HF]; rewrite HF;
    cbn [rbind]; [| now right].
  destruct (rmap_ok_or_overflow (frequency_of F) sorted_ratios) as [[fs Hfs] | Hfs].
  - intros r _. apply frequency_of_ok_or_overflow.
  - left. exists F, fs. rewrite Hfs. cbn [rbind].
    split; [reflexivity |]. split; [reflexivity |].
    now rewrite (rmap_length _ _ _ Hfs).
  - right. now rewrite Hfs.
Qed.

Lemma float_mul_comm (a b : pyfloat) : float_mul a b = float_mul b a.
Proof.
  destruct a as [p | s |], b as [q | t |]; cbn [float_mul]; try reflexivity.
  - apply binary64_Qeq. ring.
  - now rewrite xorb_comm.
Qed.

Lemma pynum_mul_comm (a b : pynum) : pynum_mul a b = pynum_mul b a.
Proof.
  destruct a as [m | f], b as [n | g]; cbn [pynum_mul].
  - now rewrite Z.mul_comm.
  - destruct (float_of_int m); cbn [rbind]; [| reflexivity].
    now rewrite float_mul_comm.
  - destruct (float_of_int n); cbn [rbind]; [| reflexivity].
    now rewrite float_mul_comm.
  - now rewrite float_mul_comm.
Qed.

(** X9. Fundamental and octave multiplier are interchangeable, and for
    [int]s only their product matters. *)
Theorem construct_commutes (f o : pynum) :
  PythagoreanSystem.construct f o = PythagoreanSystem.construct o f /\
  SistemaPitagorico.construct f o = SistemaPitagorico.construct o f /\
  forall m n : Z,
    PythagoreanSystem.construct (PyInt m) (PyInt n)
    = PythagoreanSystem.construct (PyInt (m * n)) (PyInt 1).
Proof.
  split; [| split].
  - now rewrite !construct_run, pynum_mul_comm.
  - now rewrite !construct_twin, !construct_run, pynum_mul_comm.
  - intros m n. rewrite !construct_run. cbn [pynum_mul].
    now rewrite Z.mul_1_r.
Qed.

Lemma float_of_int_overflow (n : Z) :
  (2 ^ 1024 <= Z.abs n)%Z -> float_of_int n = Raise OverflowError.
Proof.
  intros Hn. unfold float_of_int.
  destruct (binary64_infinite (inject_Z n)) as [s Hs]; [| now rewrite Hs].
  change (Qabs (inject_Z n)) with (inject_Z (Z.abs n)).
  unfold emax. rewrite <- pow2_inject by lia. now rewrite <- Zle_Qle.
Qed.

(** X10. An [int] of magnitude [2^1024] or more multiplied by a [float],
    in either order and whatever the float, raises [OverflowError] in the
    first line of the constructor; multiplied by the [int] 0 it gives a
    system whose frequencies are all zero. *)
Theorem construct_mixed_overflow (n : Z) :
  (2 ^ 1024 <= Z.abs n)%Z ->
  (forall g : pyfloat,
      PythagoreanSystem.construct (PyInt n) (PyFloat g) = Raise OverflowError /\
      PythagoreanSystem.construct (PyFloat g) (PyInt n) = Raise OverflowError) /\
  exists fs,
    PythagoreanSystem.construct (PyInt n) (PyInt 0)
    = Ok {| attr_fundamental := Some (PyInt 0);
            attr_ratios := Some sorted_ratios;
            attr_frequencies := Some fs |} /\
    Forall (fun y => y = FFin 0) fs.
Proof.
  intros Hn. split.
  - intros g. rewrite !construct_run. cbn [pynum_mul].
    now rewrite (float_of_int_overflow n Hn).
  - rewrite construct_run. cbn [pynum_mul]. rewrite Z.mul_0_r. cbn [rbind].
    destruct (rmap_total (frequency_of (PyInt 0)) (fun y => y = FFin 0)
                         sorted_ratios) as (fs & Hfs & Hall).
    + intros r _. exists (FFin 0). split; [| reflexivity].
      rewrite frequency_of_int.
      assert (E : r * inject_Z 0 == 0) by ring.
      now rewrite (binary64_zero _ E).
    + exists fs. now rewrite Hfs.
Qed.

Lemma construct_mixed_overflow_witness :
  PythagoreanSystem.construct (PyInt (10 ^ 400)) (PyFloat (FFin 0))
  = Raise OverflowError.
Proof.
  assert (H : (2 ^ 1024 <= Z.abs (10 ^ 400))%Z) by by_evaluation.
  exact (proj1 (proj1 (construct_mixed_overflow (10 ^ 400) H) (FFin 0))).
Defined.

(** ** A float fundamental *)

Lemma sorted_ratio_key (r : Fraction) :
  In r sorted_ratios -> exists k, float_of_Fraction r = Ok (FFin k) /\ 0 < k.
Proof.
  intros H. apply sorted_ratio_in_range, ratio_in_range_spec in H.
  destruct H as (_ & k & Hk & _ & [Hk1 _]). exists k. split; [exact Hk | lra].
Qed.

(** X11. When the effective fundamental is a [float], the constructor
    never raises: a NaN fundamental gives 53 NaN frequencies, an infinite
    one 53 infinite frequencies of its sign. *)
Theorem construct_float_never_raises (f o : pynum) (g : pyfloat) :
  pynum_mul f o = Ok (PyFloat g) ->
  exists fs,
    PythagoreanSystem.construct f o
    = Ok {| attr_fundamental := Some (PyFloat g);
            attr_ratios := Some sorted_ratios;
            attr_frequencies := Some fs |} /\
    length fs = 53%nat /\
    (g = FNan -> Forall (fun y => y = FNan) fs) /\
    (forall s, g = FInf s -> Forall (fun y => y = FInf s) fs).
Proof.
  intros Hmul. rewrite construct_run, Hmul. cbn [rbind].
  destruct (rmap_total (frequency_of (PyFloat g))
              (fun y => (g = FNan -> y = FNan) /\
                        (forall s, g = FInf s -> y = FInf s))
              sorted_ratios) as (fs & Hfs & Hall).
  - intros r Hr. destruct (sorted_ratio_key r Hr) as (k & Hk & Hk0).
    exists (float_mul (FFin k) g). split; [now apply frequency_of_float |].
    split.
    + intros ->. reflexivity.
    + intros s ->. cbn [float_mul].
      now rewrite (proj1 (Qgt_alt k 0) Hk0).
  - exists fs. rewrite Hfs. cbn [rbind]. split; [reflexivity |].
    split; [now rewrite (rmap_length _ _ _ Hfs) |].
    rewrite Forall_forall in Hall.
    split; [intros Hg | intros s Hg]; apply Forall_forall; intros y Hy;
      now apply (Hall y Hy).
Qed.

Lemma construct_float_never_raises_witness :
  exists fs,
    PythagoreanSystem.construct (PyFloat FNan) (PyInt 2)
    = Ok {| attr_fundamental := Some (PyFloat FNan);
            attr_ratios := Some sorted_ratios;
            attr_frequencies := Some fs |} /\
    Forall (fun y => y = FNan) fs.
Proof.
  destruct (construct_float_never_raises (PyFloat FNan) (PyInt 2) FNan)
    as (fs & H & _ & Hnan & _); [vm_compute; reflexivity |].
  exists fs. split; [exact H | now apply Hnan].
Defined.

(** ** The instance the constructor leaves *)

Lemma calculate_frequencies_unfold (self : instance) (F : pynum)
      (rs : list Fraction) :
  attr_ratios self = Some rs -> attr_fundamental self = Some F ->
  PythagoreanSystem.calculate_frequencies self
  = rbind (rmap (frequency_of F) rs) (fun fs => Ok (fs, self)).
Proof.
  intros Hrs HF.
  unfold PythagoreanSystem.calculate_frequencies, bind at 1.
  unfold get_attr at 1. rewrite Hrs.
  now apply comprehension_frequencies.
Qed.

Lemma list_sort_sorted_ratios : list_sort sort_key sorted_ratios = Ok sorted_ratios.
Proof. exact (list_sort_idempotent _ _ list_sort_generated). Qed.

Lemma construct_int_runs (m n : Z) :
  Qabs (inject_Z (m * n)) <= 2 ^ 1023 ->
  exists fs,
    PythagoreanSystem.construct (PyInt m) (PyInt n)
    = Ok {| attr_fundamental := Some (PyInt (m * n));
            attr_ratios := Some sorted_ratios;
            attr_frequencies := Some fs |}.
Proof.
  intros H.
  destruct (frequencies_in_range (PyInt (m * n)) _ I eq_refl H)
    as (fs & Hfs & _).
  exists fs. rewrite construct_run. cbn [pynum_mul rbind]. now rewrite Hfs.
Qed.

(** X12. The instance the constructor returns is a fixed point of its own
    methods: [sort_ratios] leaves it as it is, and [calculate_frequencies]
    returns the frequencies it already stores. *)
Theorem constructed_instance_stable (f o : pynum) (inst : instance) :
  PythagoreanSystem.construct f o = Ok inst ->
  exists F fs,
    inst = {| attr_fundamental := Some F;
              attr_ratios := Some sorted_ratios;
              attr_frequencies := Some fs |} /\
    PythagoreanSystem.sort_ratios inst = Ok (tt, inst) /\
    PythagoreanSystem.calculate_frequencies inst = Ok (fs, inst).
Proof.
  rewrite construct_run.
  destruct (pynum_mul f o) as [F |]; cbn [rbind]; [| discriminate].
  destruct (rmap (frequency_of F) sorted_ratios) as [fs |] eqn:E; cbn [rbind];
    [| discriminate].
  intros H. injection H as <-. exists F, fs.
  split; [reflexivity |]. split.
  - now rewrite sort_ratios_unfold, list_sort_sorted_ratios.
  - rewrite (calculate_frequencies_unfold
               {| attr_fundamental := Some F;
                  attr_ratios := Some sorted_ratios;
                  attr_frequencies := Some fs |}
               F sorted_ratios eq_refl eq_refl).
    now rewrite E.
Qed.

Lemma constructed_instance_stable_witness :
  exists inst,
    PythagoreanSystem.construct (PyInt 32) (PyInt 2) = Ok inst /\
    PythagoreanSystem.sort_ratios inst = Ok (tt, inst).
Proof.
  destruct (construct_int_runs 32 2) as (fs & H); [by_evaluation |].
  eexists. split; [exact H |].
  destruct (constructed_instance_stable _ _ _ H) as (F & fs' & _ & Hs & _).
  exact Hs.
Defined.

(** ** Frequencies of an [int] fundamental never collide *)

Lemma sorted_ratios_spread :
  forallb (fun ab => Qle_bool (fst ab * (101 # 100)) (snd ab))
          (combine sorted_ratios (tl sorted_ratios)) = true.
Proof. vm_compute. reflexivity. Qed.

Lemma sorted_ratios_spread_sorted :
  Sorted (fun a b => a * (101 # 100) <= b) sorted_ratios.
Proof.
  pose proof (neighbours_forallb (fun a b => Qle_bool (a * (101 # 100)) b)
                                 _ sorted_ratios_spread) as H.
  assert (G : forall l : list Q,
             (forall i a b, nth_error l i = Some a -> nth_error l (S i) = Some b ->
                            Qle_bool (a * (101 # 100)) b = true) ->
             Sorted (fun a b => a * (101 # 100) <= b) l).
  { clear H. induction l as [| x l IH]; intros H; [constructor |].
    constructor.
    - apply IH. intros i a b Ha Hb. exact (H (S i) a b Ha Hb).
    - destruct l as [| y l]; constructor.
      apply Qle_bool_iff. exact (H 0%nat x y eq_refl eq_refl). }
  exact (G _ H).
Qed.

Lemma frequency_of_int_bounds (n : Z) (r : Fraction) (q : Q) :
  1 <= r -> frequency_of (PyInt n) r = Ok (FFin q) ->
  let x := r * inject_Z n in
  (0 <= x -> x - 2 ^ (-53) * x <= q <= x + 2 ^ (-53) * x) /\
  (x <= 0 -> x + 2 ^ (-53) * x <= q <= x - 2 ^ (-53) * x).
Proof.
  intros Hr H x. pose proof (frequency_of_int_error n r q Hr H) as He.
  fold x in He. apply Qabs_Qle_condition in He.
  change (2 ^ (-53)) with (1 # 9007199254740992) in *.
  split; intros Hx.
  - rewrite (Qabs_pos x Hx) in He. split; lra.
  - rewrite (Qabs_neg x Hx) in He. split; lra.
Qed.

Lemma frequency_of_int_strict (n : Z) (r r' : Fraction) (y y' : pyfloat) :
  1 <= r -> r * (101 # 100) <= r' ->
  frequency_of (PyInt n) r = Ok y -> frequency_of (PyInt n) r' = Ok y' ->
  ((0 < n)%Z -> float_lt y y' = true) /\
  ((n < 0)%Z -> float_lt y' y = true).
Proof.
  intros Hr Hrr H H'.
  destruct (frequency_of_int_finite _ _ _ H) as (q & -> & _).
  destruct (frequency_of_int_finite _ _ _ H') as (q' & -> & _).
  assert (Hr' : 1 <= r') by lra.
  destruct (frequency_of_int_bounds n r q Hr H) as [Bp Bn].
  destruct (frequency_of_int_bounds n r' q' Hr' H') as [Bp' Bn'].
  cbv zeta in *.
  set (x := r * inject_Z n) in *. set (x' := r' * inject_Z n) in *.
  change (2 ^ (-53)) with (1 # 9007199254740992) in *.
  cbn [float_lt]. split; intros Hn.
  - assert (Hn1 : 1 <= inject_Z n)
      by (change 1 with (inject_Z 1); rewrite <- Zle_Qle; lia).
    assert (Hx : 1 <= x).
    { unfold x. apply (Qle_trans _ (1 * inject_Z n)); [lra |].
      apply Qmult_le_compat_r; lra. }
    assert (Hxx : x * (101 # 100) <= x').
    { unfold x, x'.
      setoid_replace (r * inject_Z n * (101 # 100))
        with (r * (101 # 100) * inject_Z n) by ring.
      apply Qmult_le_compat_r; lra. }
    apply negb_true_iff.
    destruct (Qle_bool q' q) eqn:E; [| reflexivity].
    apply Qle_bool_iff in E. exfalso.
    specialize (Bp ltac:(lra)). specialize (Bp' ltac:(lra)). lra.
  - assert (Hn1 : inject_Z n <= - (1))
      by (change (- (1)) with (inject_Z (-1)); rewrite <- Zle_Qle; lia).
    assert (Hx : x <= - (1)).
    { unfold x. apply (Qle_trans _ (1 * inject_Z n)); [| lra].
      setoid_replace (r * inject_Z n) with (- (r * - inject_Z n)) by ring.
      setoid_replace (1 * inject_Z n) with (- (1 * - inject_Z n)) by ring.
      apply Qopp_le_compat. apply Qmult_le_compat_r; lra. }
    assert (Hxx : x' <= x * (101 # 100)).
    { unfold x, x'.
      setoid_replace (r' * inject_Z n) with (- (r' * - inject_Z n)) by ring.
      setoid_replace (r * inject_Z n * (101 # 100))
        with (- (r * (101 # 100) * - inject_Z n)) by ring.
      apply Qopp_le_compat. apply Qmult_le_compat_r; lra. }
    apply negb_true_iff.
    destruct (Qle_bool q q') eqn:E; [| reflexivity].
    apply Qle_bool_iff in E. exfalso.
    specialize (Bn ltac:(lra)). specialize (Bn' ltac:(lra)). lra.
Qed.

(** X13. For an [int] fundamental the 53 frequencies never collide:
    they ascend strictly when it is positive and descend strictly when it
    is negative. *)
Theorem int_frequencies_strictly_monotone (n : Z) (fs : list pyfloat)
        (self' : instance) :
  PythagoreanSystem.calculate_frequencies (configured (PyInt n) sorted_ratios)
  = Ok (fs, self') ->
  ((0 < n)%Z -> Sorted (fun a b => float_lt a b = true) fs) /\
  ((n < 0)%Z -> Sorted (fun a b => float_lt b a = true) fs).
Proof.
  rewrite calculate_frequencies_run.
  destruct (rmap (frequency_of (PyInt n)) sorted_ratios) as [fs' |] eqn:E;
    cbn [rbind]; [| discriminate].
  intros H. injection H as -> _. apply rmap_Forall2 in E.
  assert (Hrng : Forall (fun r => 1 <= r) sorted_ratios).
  { rewrite Forall_forall. intros r Hr.
    apply sorted_ratio_in_range, ratio_in_range_spec in Hr.
    now destruct Hr as [[H1 _] _]. }
  split; intros Hn.
  - refine (Forall2_sorted _ _ _ _ _ _ _ Hrng sorted_ratios_spread_sorted E).
    intros a a' b b' Ha _ Haa Hb Hb'.
    exact (proj1 (frequency_of_int_strict n a a' b b' Ha Haa Hb Hb') Hn).
  - refine (Forall2_sorted _ _ _ _ _ _ _ Hrng sorted_ratios_spread_sorted E).
    intros a a' b b' Ha _ Haa Hb Hb'.
    exact (proj2 (frequency_of_int_strict n a a' b b' Ha Haa Hb Hb') Hn).
Qed.

Lemma int_frequencies_strictly_monotone_witness :
  Sorted (fun a b => float_lt b a = true) 
         (match rmap (frequency_of (PyInt (-7))) sorted_ratios with
          | Ok fs => fs
          | Raise _ => []
          end).
Proof.
  destruct (frequencies_in_range (PyInt (-7)) (-7) I eq_refl)
    as (fs & Hfs & _); [by_evaluation |].
  rewrite Hfs.
  refine (proj2 (int_frequencies_strictly_monotone (-7) fs
                   (configured (PyInt (-7)) sorted_ratios) _) _);
    [| reflexivity].
  rewrite calculate_frequencies_run, Hfs. reflexivity.
Defined.

(** ** Frequencies stay within the octave of the fundamental *)

Lemma Qlog2_int (n : Z) : (0 < n)%Z -> Qlog2 (inject_Z n) = Z.log2 n.
Proof.
  intros Hn. apply Qlog2_unique.
  destruct (Zlog2_bounds n Hn) as [Hhi Hlo]. split; assumption.
Qed.

Lemma Qred_inject_Z (n : Z) : Qred (inject_Z n) = inject_Z n.
Proof. apply Qcanon.Qred_identity. simpl. apply Z.gcd_1_r. Qed.

Lemma binary64_int_exact (n : Z) :
  (1 <= n <= 2 ^ 53)%Z -> binary64 (inject_Z n) = FFin (inject_Z n).
Proof.
  intros [Hlo Hhi].
  destruct (Z.eq_dec n (2 ^ 53)) as [-> | Hne]; [vm_compute; reflexivity |].
  assert (Hl : (0 <= Z.log2 n <= 52)%Z).
  { split; [apply Z.log2_nonneg |].
    assert (H : (Z.log2 n < 53)%Z) by (apply Z.log2_lt_pow2; lia). lia. }
  assert (Hpos : 0 < inject_Z n)
    by (change 0 with (inject_Z 0); rewrite <- Zlt_Qlt; lia).
  assert (E : round_pos (inject_Z n) == inject_Z n).
  { apply (round_pos_exact _ (n * 2 ^ (52 - Z.log2 n))).
    unfold ulp. rewrite (Qlog2_int n) by lia.
    rewrite Z.max_l by (unfold emin; lia).
    rewrite inject_Z_mult, pow2_inject by lia.
    rewrite <- Qmult_assoc, <- pow2_plus.
    replace (52 - Z.log2 n + (Z.log2 n - 52))%Z with 0%Z by lia.
    change (2 ^ 0) with 1. ring. }
  rewrite (binary64_pos _ Hpos).
  destruct (Qle_bool (2 ^ emax) (round_pos (inject_Z n))) eqn:Eo.
  - exfalso. apply Qle_bool_iff in Eo. rewrite E in Eo.
    assert (Hb : inject_Z n <= inject_Z (2 ^ 53)) by (rewrite <- Zle_Qle; lia).
    assert (Hc : inject_Z (2 ^ 53) < 2 ^ emax) by (vm_compute; reflexivity).
    lra.
  - f_equal. transitivity (Qred (inject_Z n));
      [now apply Qred_complete | apply Qred_inject_Z].
Qed.

(** X14. For an [int] fundamental [n] between 1 and [2^53], the first
    frequency is exactly [n] and every frequency lies in [n, 2n). *)
Theorem frequencies_within_octave (n : Z) :
  (1 <= n <= 2 ^ 53)%Z ->
  exists fs,
    PythagoreanSystem.calculate_frequencies
      (configured (PyInt n) sorted_ratios)
    = Ok (fs, configured (PyInt n) sorted_ratios) /\
    hd_error fs = Some (FFin (inject_Z n)) /\
    Forall (fun y => exists q, y = FFin q /\
                               inject_Z n <= q < 2 * inject_Z n) fs.
Proof.
  intros Hn. pose proof (binary64_int_exact n Hn) as Hexact.
  assert (Hn1 : 1 <= inject_Z n)
    by (change 1 with (inject_Z 1); rewrite <- Zle_Qle; lia).
  destruct (rmap_total (frequency_of (PyInt n))
              (fun y => exists q, y = FFin q /\
                                  inject_Z n <= q < 2 * inject_Z n)
              sorted_ratios) as (fs & Hfs & Hall).
  - intros r Hr. apply sorted_ratio_in_range in Hr.
    destruct (ratio_in_range_spec r Hr) as ([Hr1 Hr2] & _).
    destruct (frequency_in_range (PyInt n) (inject_Z n) r I eq_refl) as (q & Hq & _);
      [| exact Hr |].
    { change (Qabs (inject_Z n)) with (inject_Z (Z.abs n)).
      apply (Qle_trans _ (inject_Z (2 ^ 53))); [rewrite <- Zle_Qle; lia |].
      by_evaluation. }
    exists (FFin q). split; [exact Hq |]. exists q. split; [reflexivity |].
    split.
    + destruct (frequency_of_int_finite _ _ _ Hq) as (q' & Hq' & Hb).
      apply FFin_inj in Hq'. subst q'.
      assert (Hm : float_le (binary64 (inject_Z n))
                            (binary64 (r * inject_Z n)) = true).
      { apply binary64_mono_pos; [lra |].
        apply (Qle_trans _ (1 * inject_Z n)); [lra |].
        apply Qmult_le_compat_r; lra. }
      rewrite Hexact, Hb in Hm. cbn [float_le] in Hm.
      now apply Qle_bool_iff.
    + destruct (frequency_of_int_bounds n r q Hr1 Hq) as [Bp _].
      cbv zeta in Bp.
      assert (Hx : r * inject_Z n <= (2 - 2 ^ (-52)) * inject_Z n)
        by (apply Qmult_le_compat_r; lra).
      assert (Hx0 : 0 <= r * inject_Z n)
        by (apply Qmult_le_0_compat; lra).
      specialize (Bp Hx0).
      change (2 ^ (-53)) with (1 # 9007199254740992) in *.
      change (2 ^ (-52)) with (1 # 4503599627370496) in *.
      set (x := r * inject_Z n) in *. lra.
  - exists fs. rewrite calculate_frequencies_run, Hfs. cbn [rbind].
    split; [reflexivity |]. split; [| exact Hall].
    apply rmap_Forall2 in Hfs.
    assert (E : exists tl, sorted_ratios = 1 :: tl) by (eexists; reflexivity).
    destruct E as [tl E]. rewrite E in Hfs.
    inversion Hfs as [| ? y ? ys Hy _]; subst. cbn [hd_error]. f_equal.
    rewrite frequency_of_int in Hy. apply finite_or_overflow_inv in Hy.
    rewrite <- Hy, <- Hexact. apply binary64_Qeq. ring.
Qed.

Lemma frequencies_within_octave_witness :
  exists fs,
    PythagoreanSystem.calculate_frequencies
      (configured (PyInt 440) sorted_ratios)
    = Ok (fs, configured (PyInt 440) sorted_ratios) /\
    hd_error fs = Some (FFin 440).
Proof.
  assert (H : (1 <= 440 <= 2 ^ 53)%Z) by (split; by_evaluation).
  destruct (frequencies_within_octave 440 H) as (fs & Hrun & Hhd & _).
  exists fs. split; assumption.
Defined.

(** ** Methods called before their attributes are set *)

(** X15. [calculate_frequencies] reads [self.ratios] first and
    [self.fundamental] once per ratio: without ratios it raises
    [AttributeError]; with ratios but no fundamental it raises
    [AttributeError]; with an empty ratio list it returns the empty list
    even when no fundamental is set. *)
Theorem calculate_frequencies_missing_attributes
        (f : option pynum) (fr : option (list pyfloat))
        (r : Fraction) (rs : list Fraction) :
  PythagoreanSystem.calculate_frequencies
    {| attr_fundamental := f; attr_ratios := None; attr_frequencies := fr |}
  = Raise AttributeError /\
  PythagoreanSystem.calculate_frequencies
    {| attr_fundamental := None; attr_ratios := Some (r :: rs);
       attr_frequencies := fr |}
  = Raise AttributeError /\
  PythagoreanSystem.calculate_frequencies
    {| attr_fundamental := None; attr_ratios := Some [];
       attr_frequencies := fr |}
  = Ok ([], {| attr_fundamental := None; attr_ratios := Some [];
               attr_frequencies := fr |}) /\
  SistemaPitagorico.calcola_frequenze
    {| attr_fundamental := None; attr_ratios := Some [];
       attr_frequencies := fr |}
  = Ok ([], {| attr_fundamental := None; attr_ratios := Some [];
               attr_frequencies := fr |}).
Proof. repeat split. Qed.
